(** * MEGAETH 2048: the on-chain game ledger and its board validator

    The development follows [contracts/MEGAETH2048.sol]: the storage of the
    contract, its modifier [correctGameId], the two mutating entry points
    [startGame] and [play], and the views.  The contract imports a library
    [Board] ([LibBoard.sol]) and uses the EVM primitive [keccak256]; the
    ledger is stated over both as an interface, and a model of the board
    library, written after the specification, is given in [Module Board]. *)

From Stdlib Require Import ZArith List Lia Bool.
From stdpp Require Import base option list gmap.
Import ListNotations.
Local Open Scope Z_scope.

(* ===================================================================== *)
(** * Keccak-256, the hash primitive of the EVM                           *)
(* ===================================================================== *)

(** Bytes are integers in [0, 256); a digest is read as a big-endian
    256-bit unsigned integer, which is what [uint256(keccak256(...))]
    yields in Solidity. *)
Module Keccak.

Definition lanemask : Z := Z.ones 64.

Definition rol64 (a : Z) (n : Z) : Z :=
  let k := n mod 64 in
  Z.land (Z.lor (Z.shiftl a k) (Z.shiftr a (64 - k))) lanemask.

Definition lane (st : list Z) (x y : Z) : Z :=
  nth (Z.to_nat (x + 5 * y)) st 0.

Definition set_lane (st : list Z) (x y : Z) (v : Z) : list Z :=
  <[Z.to_nat (x + 5 * y) := v]> st.

Definition coords : list (Z * Z) :=
  y ← [0;1;2;3;4]; x ← [0;1;2;3;4]; [(x, y)].

Definition theta (st : list Z) : list Z :=
  let C x := fold_left Z.lxor (map (lane st x) [0;1;2;3;4]) 0 in
  let D x := Z.lxor (C ((x + 4) mod 5)) (rol64 (C ((x + 1) mod 5)) 1) in
  map (fun '(x, y) => Z.lxor (lane st x y) (D x)) coords.

Fixpoint rho_pi_loop (ts : list Z) (x y cur : Z) (st : list Z) : list Z :=
  match ts with
  | [] => st
  | t :: ts' =>
      let x' := y in
      let y' := (2 * x + 3 * y) mod 5 in
      let nxt := lane st x' y' in
      rho_pi_loop ts' x' y' nxt
        (set_lane st x' y' (rol64 cur ((t + 1) * (t + 2) / 2)))
  end.

Definition rho_pi (st : list Z) : list Z :=
  rho_pi_loop (map Z.of_nat (seq 0 24)) 1 0 (lane st 1 0) st.

Definition chi (st : list Z) : list Z :=
  map (fun '(x, y) =>
         Z.lxor (lane st x y)
           (Z.land (Z.lxor (lane st ((x + 1) mod 5) y) lanemask)
                   (lane st ((x + 2) mod 5) y))) coords.

(** The round constants come from the degree-8 LFSR of the standard. *)
Fixpoint iota_loop (js : list Z) (R : Z) (l0 : Z) : Z * Z :=
  match js with
  | [] => (R, l0)
  | j :: js' =>
      let R' := (Z.lxor (Z.shiftl R 1) (Z.shiftr R 7 * 113)) mod 256 in
      let l0' := if Z.testbit R' 1
                 then Z.lxor l0 (Z.shiftl 1 (Z.shiftl 1 j - 1)) else l0 in
      iota_loop js' R' l0'
  end.

Definition round (p : Z * list Z) : Z * list Z :=
  let '(R, st) := p in
  let st1 := chi (rho_pi (theta st)) in
  let '(R', l0) := iota_loop [0;1;2;3;4;5;6] R (lane st1 0 0) in
  (R', set_lane st1 0 0 l0).

Definition keccak_f (st : list Z) : list Z :=
  snd (Nat.iter 24 round (1, st)).

Definition rate : nat := 136.

Fixpoint le_word (bs : list Z) : Z :=
  match bs with
  | [] => 0
  | b :: bs' => b + 256 * le_word bs'
  end.

Fixpoint le_bytes (n : nat) (w : Z) : list Z :=
  match n with
  | O => []
  | S n' => w mod 256 :: le_bytes n' (w / 256)
  end.

Fixpoint block_lanes (n : nat) (bs : list Z) : list Z :=
  match n with
  | O => []
  | S n' => le_word (take 8 bs) :: block_lanes n' (drop 8 bs)
  end.

Definition absorb_block (st : list Z) (blk : list Z) : list Z :=
  keccak_f (zip_with Z.lxor st (block_lanes 25 blk)).

Definition pad (msg : list Z) : list Z :=
  let q := (rate - length msg mod rate)%nat in
  if Nat.eqb q 1 then msg ++ [129]
  else msg ++ [1] ++ repeat 0 (q - 2) ++ [128].

Fixpoint absorb (fuel : nat) (st : list Z) (bs : list Z) : list Z :=
  match fuel with
  | O => st
  | S fuel' =>
      match bs with
      | [] => st
      | _ => absorb fuel' (absorb_block st (take rate bs)) (drop rate bs)
      end
  end.

Fixpoint be_word (bs : list Z) (acc : Z) : Z :=
  match bs with
  | [] => acc
  | b :: bs' => be_word bs' (acc * 256 + b)
  end.

Definition keccak256 (msg : list Z) : Z :=
  let p := pad msg in
  let st := absorb (S (length p / rate)) (repeat 0 25%nat) p in
  be_word (take 32 (flat_map (le_bytes 8) st)) 0.

End Keccak.

(* ===================================================================== *)
(** * ABI packed encoding                                                 *)
(* ===================================================================== *)

(** [abi.encodePacked] of a [bytes32] or [uint256] is its 32 big-endian
    bytes; the elements of a static array are each padded to 32 bytes. *)
Module Abi.

Fixpoint be_bytes (n : nat) (w : Z) : list Z :=
  match n with
  | O => []
  | S n' => be_bytes n' (w / 256) ++ [w mod 256]
  end.

Definition word32 (w : Z) : list Z := be_bytes 32 w.

Definition encodePacked (ws : list Z) : list Z := flat_map word32 ws.

End Abi.

(* ===================================================================== *)
(** * The board library                                                   *)
(* ===================================================================== *)

(** [LibBoard.sol] is imported by the contract but is not among the
    sources at hand.  Every definition of this module is a model of a part
    of that library, written after the specification (sections 3 and 4.1
    to 4.4), and says so. *)
Module Board.

(** Modelled from the spec: the directions of section 3 (Move), which
    [LibBoard.sol], not in the sources, would define. *)
Inductive Move := Up | Down | Left | Right.

(** Modelled from the spec: the error kinds of section 7 that belong to
    the missing [LibBoard.sol]. *)
Inductive error :=
  | IndexOutOfRange
  | ExponentOutOfRange
  | InvalidMove
  | MismatchedResult
  | NoEmptyCell.

(** Modelled from the spec: a value or one of the errors above, for the
    fallible operations of the missing [LibBoard.sol]. *)
Inductive result (A : Type) :=
  | Ok (a : A)
  | Err (e : error).
Arguments Ok {A} a.
Arguments Err {A} e.

#[global] Instance result_ret : MRet result := fun A a => Ok a.
#[global] Instance result_bind : MBind result := fun A B f r =>
  match r with
  | Ok a => f a
  | Err e => Err e
  end.

(** Modelled from the spec: the packing constants of BoardCodec in the
    missing [LibBoard.sol].  A board is a 128-bit word of 16 tiles, 8 bits
    per tile. *)
Definition fieldWidth : Z := 8.
Definition cells : nat := 16.
Definition maxExponent : Z := Z.ones fieldWidth.

(** Modelled from the spec: the width of the packed word of section 3
    (missing [LibBoard.sol]), 128 bits. *)
Definition boardWidth : Z := Z.of_nat cells * fieldWidth.

(** Modelled from the spec: the fixed offset [index * fieldWidth] of a
    tile (BoardCodec of the missing [LibBoard.sol]), counted from the
    least significant bit. *)
Definition offset (index : nat) : Z := Z.of_nat index * fieldWidth.

(** Modelled from the spec: the field read by [getTile] (missing
    [LibBoard.sol]), without its range check. *)
Definition tileAt (board : Z) (index : nat) : Z :=
  Z.land (Z.shiftr board (offset index)) (Z.ones fieldWidth).

(** Modelled from the spec: the field replaced by [setTile] (missing
    [LibBoard.sol]), without its range check. *)
Definition putTile (board : Z) (index : nat) (exponent : Z) : Z :=
  Z.lor (Z.land board (Z.lnot (Z.shiftl (Z.ones fieldWidth) (offset index))))
        (Z.shiftl exponent (offset index)).

(** Modelled from the spec: BoardCodec [getTile] of the missing
    [LibBoard.sol], failing with [IndexOutOfRange] when the index is 16 or
    more. *)
Definition getTile (board : Z) (index : nat) : result Z :=
  if (index <? cells)%nat then Ok (tileAt board index)
  else Err IndexOutOfRange.

(** Modelled from the spec: BoardCodec [setTile] of the missing
    [LibBoard.sol], failing with [ExponentOutOfRange] when the exponent
    does not fit the field. *)
Definition setTile (board : Z) (index : nat) (exponent : Z) : result Z :=
  if negb (index <? cells)%nat then Err IndexOutOfRange
  else if (0 <=? exponent) && (exponent <=? maxExponent)
       then Ok (putTile board index exponent)
       else Err ExponentOutOfRange.

(** Modelled from the spec: BoardCodec [isEmpty] of the missing
    [LibBoard.sol], which is [getTile = 0]. *)
Definition isEmpty (board : Z) (index : nat) : result bool :=
  e ← getTile board index; Ok (e =? 0).

(** Modelled from the spec: the 16 tiles of a packed board, row-major
    (section 3; the missing [LibBoard.sol] reads them with [getTile]). *)
Definition unpack (board : Z) : list Z := map (tileAt board) (seq 0 cells).

(** Modelled from the spec: the invariant of section 3 (missing
    [LibBoard.sol]): a board is a 128-bit word whose every field is within
    the exponent range; "a board with any out-of-range field is invalid
    and must be rejected before simulation".  The range runs from 0 to
    "the largest attainable exponent (practically <= 15)", above which
    the 8-bit field leaves "generous headroom"; where it ends is left to
    the implementation, so [largestExponent] is a parameter. *)
Definition validBoard (largestExponent : Z) (board : Z) : bool :=
  (0 <=? board) && (board <? 2 ^ boardWidth)
  && forallb (fun e => e <=? largestExponent) (unpack board).

(** Modelled from the spec: step 4 of MoveSimulator (missing
    [LibBoard.sol]), the tiles reassembled into a board, field by field,
    from cell [index] on. *)
Fixpoint assembleFrom (index : nat) (tiles : list Z) (acc : Z) : Z :=
  match tiles with
  | [] => acc
  | t :: tiles' => assembleFrom (S index) tiles' (putTile acc index t)
  end.

(** Modelled from the spec: the board of 16 tiles (step 4 of
    MoveSimulator, missing [LibBoard.sol]).  After a move on a valid board
    every exponent is at most one above the exponent range and fits its
    field. *)
Definition assemble (tiles : list Z) : Z := assembleFrom 0 tiles 0.

(** Modelled from the spec: the four lines of MoveSimulator (missing
    [LibBoard.sol]), each listed from the leading edge of the move: rows
    for Left and Right, columns for Up and Down. *)
Definition lineIndices (m : Move) : list (list nat) :=
  match m with
  | Left  => [[0;1;2;3]; [4;5;6;7]; [8;9;10;11]; [12;13;14;15]]
  | Right => [[3;2;1;0]; [7;6;5;4]; [11;10;9;8]; [15;14;13;12]]
  | Up    => [[0;4;8;12]; [1;5;9;13]; [2;6;10;14]; [3;7;11;15]]
  | Down  => [[12;8;4;0]; [13;9;5;1]; [14;10;6;2]; [15;11;7;3]]
  end%nat.

(** Modelled from the spec: the tiles of one line, in the direction of
    travel (MoveSimulator of the missing [LibBoard.sol]). *)
Definition extractLine (tiles : list Z) (idxs : list nat) : list Z :=
  map (fun i => nth i tiles 0) idxs.

Definition nonEmpty (e : Z) : bool := negb (e =? 0).

(** Modelled from the spec: step 2 of MoveSimulator (missing
    [LibBoard.sol]): walking from the leading edge, two equal neighbours
    merge into [e + 1], and a merged tile is not merged again. *)
Fixpoint mergeLine (l : list Z) : list Z :=
  match l with
  | [] => []
  | a :: l' =>
      match l' with
      | [] => [a]
      | b :: rest => if a =? b then (a + 1) :: mergeLine rest
                     else a :: mergeLine l'
      end
  end.

(** Modelled from the spec: steps 1 to 3 of MoveSimulator on one line
    (missing [LibBoard.sol]): keep the non-empty tiles, merge, and fill the
    trailing cells with empty ones. *)
Definition slideLine (line : list Z) : list Z :=
  let m := mergeLine (List.filter nonEmpty line) in
  m ++ repeat 0 (length line - length m)%nat.

(** Modelled from the spec: a line written back to its cells (step 4 of
    MoveSimulator, missing [LibBoard.sol]). *)
Fixpoint placeLine (tiles : list Z) (idxs : list nat) (vals : list Z)
  : list Z :=
  match idxs, vals with
  | i :: idxs', v :: vals' => placeLine (<[i := v]> tiles) idxs' vals'
  | _, _ => tiles
  end.

(** Modelled from the spec: steps 1 to 4 of MoveSimulator on the 16
    exponents (missing [LibBoard.sol]): every line of the input is slid
    and written back. *)
Definition shiftTiles (m : Move) (tiles : list Z) : list Z :=
  fold_left
    (fun acc idxs => placeLine acc idxs (slideLine (extractLine tiles idxs)))
    (lineIndices m) tiles.

(** Modelled from the spec: the empty cells of a board, in index order
    (the occupancy queries of SpawnOracle, missing [LibBoard.sol]). *)
Definition emptyCells (board : Z) : list nat :=
  List.filter (fun i => tileAt board i =? 0) (seq 0 cells).

(** Modelled from the spec: MoveSimulator [simulateMove] of the missing
    [LibBoard.sol], returning the board before the spawn, the flag
    [merged] (some cell changed) and the empty cells after the shift.  It
    has no failure case; section 3 has an invalid board rejected before
    simulation, so it is run on valid boards only. *)
Definition simulateMove (board : Z) (m : Move) : Z * bool * list nat :=
  let tiles := unpack board in
  let tiles' := shiftTiles m tiles in
  let b := assemble tiles' in
  (b, negb (bool_decide (tiles' = tiles)), emptyCells b).

(** Modelled from the spec: "a legal shift/merge exists" (sections 4.2
    and 4.4, for the missing [LibBoard.sol]): the board is valid and the
    move changes some cell. *)
Definition legalMove (largestExponent : Z) (board : Z) (m : Move) : bool :=
  validBoard largestExponent board && snd (fst (simulateMove board m)).

Section Spawn.

(** The derivation of the 90/10 bias from the seed is left open by the
    specification; it is a parameter: [spawnsFour seed] tells whether the
    spawned tile has exponent 2. *)
Variable spawnsFour : Z -> bool.

(** The upper end of the exponent range, which the specification leaves
    to the implementation (see [validBoard]). *)
Variable largestExponent : Z.

(** Modelled from the spec: SpawnOracle [chooseSpawn] of the missing
    [LibBoard.sol]: the empty cell of rank [seed mod numEmptyCells] and an
    exponent 1 or 2, or [NoEmptyCell]. *)
Definition chooseSpawn (board : Z) (seed : Z) : result (nat * Z) :=
  let es := emptyCells board in
  match es with
  | [] => Err NoEmptyCell
  | _ => Ok (nth (Z.to_nat (seed mod Z.of_nat (length es))) es 0%nat,
             if spawnsFour seed then 2 else 1)
  end.

(** Modelled from the spec: TransitionValidator [validateTransition],
    which the contract calls [Board.validateTransformation] and whose code
    is in the missing [LibBoard.sol].  An invalid board is rejected before
    simulation, a move that changes nothing is rejected, and otherwise the
    claimed board is compared with the canonical one. *)
Definition validateTransition (prevBoard : Z) (m : Move)
    (claimedResultBoard : Z) (seed : Z) : result bool :=
  if negb (validBoard largestExponent prevBoard) then Ok false
  else
    let '(b, merged, _) := simulateMove prevBoard m in
    if negb merged then Ok false
    else
      '(index, exponent) ← chooseSpawn b seed;
      canonical ← setTile b index exponent;
      Ok (claimedResultBoard =? canonical).

(** Modelled from the spec: the empty cells of section 4.3 said on the
    16 exponents, in index order (the missing [LibBoard.sol] finds them on
    the packed word). *)
Definition emptyPositions (tiles : list Z) : list nat :=
  List.filter (fun i => nth i tiles 0 =? 0) (seq 0 (length tiles)).

(** Modelled from the spec: the canonical result of sections 4.2 and 4.3
    said on the 16 exponents, without any packing (the missing
    [LibBoard.sol] computes it on the packed word): the shifted and merged
    tiles, with the spawned exponent written into the empty cell of rank
    [seed mod numEmptyCells]. *)
Definition canonicalTiles (board : Z) (m : Move) (seed : Z) : list Z :=
  let shifted := shiftTiles m (unpack board) in
  let es := emptyPositions shifted in
  <[nth (Z.to_nat (seed mod Z.of_nat (length es))) es 0%nat
    := if spawnsFour seed then 2 else 1]> shifted.

End Spawn.

(** Modelled from the spec: [validateStartPosition] of the missing
    [LibBoard.sol]: exactly two tiles, each of exponent 1 or 2. *)
Definition validateStartPosition (board : Z) : bool :=
  let tiles := unpack board in
  forallb (fun e => e <=? 2) tiles
  && (length (List.filter nonEmpty tiles) =? 2)%nat.

(** Modelled from the spec: the move as the contract passes it, a
    [uint8]; the contract's documentation of [play] lists the moves as UP,
    DOWN, LEFT, RIGHT, and the numbering is that of the missing
    [LibBoard.sol]. *)
Definition decodeMove (move : Z) : option Move :=
  if move =? 0 then Some Up
  else if move =? 1 then Some Down
  else if move =? 2 then Some Left
  else if move =? 3 then Some Right
  else None.

(** Modelled from the spec: [Board.validateTransformation] as the
    contract calls it (missing [LibBoard.sol]): true exactly when
    [validateTransition] returns true. *)
Definition validateTransformation (spawnsFour : Z -> bool)
    (largestExponent : Z) (prevBoard move nextBoard seed : Z) : bool :=
  match decodeMove move with
  | Some m =>
      match validateTransition spawnsFour largestExponent prevBoard m
              nextBoard seed with
      | Ok true => true
      | _ => false
      end
  | None => false
  end.

End Board.

(* ===================================================================== *)
(** * The contract MEGAETH2048                                            *)
(* ===================================================================== *)

Module GameState.

(** [struct GameState { uint8 move; uint120 nextMove; uint128 board; }] *)
Record t := mk { move : Z; nextMove : Z; board : Z }.

(** What a mapping slot reads as before any write. *)
Definition zero : t := mk 0 0 0.

End GameState.

Module Ledger.

(** What the contract takes from outside its own file. *)
Class Hash := { keccak256 : list Z -> Z }.

Class BoardLib := {
  validateStartPosition : Z -> bool;
  validateTransformation : Z -> Z -> Z -> Z -> bool
}.

(** The [require] messages of the contract, and the panic of checked
    arithmetic. *)
Inductive Revert :=
  | GameIdUsed
  | GamePlayed
  | GameBoardInvalid
  | GamePlayerInvalid
  | Panic.

Inductive Event :=
  | NewGame (player id board : Z)
  | NewMove (player id move result : Z)
  | MoveConfirmed (player id move blockNumber : Z).

(** The three storage mappings; a missing key reads as zero. *)
Record Storage := mkStorage {
  state : gmap Z GameState.t;
  gameHashOf : gmap Z Z;
  moveConfirmed : gmap (Z * Z) bool
}.

(** Storage together with the events emitted so far, oldest first. *)
Record World := mkWorld { storage : Storage; log : list Event }.

Definition genesis : World := mkWorld (mkStorage ∅ ∅ ∅) [].

(** A function body: it runs on a world and stops at the first failing
    [require], handing back the world as it stands at that point. *)
Definition Tx (A : Type) : Type := World -> World * (Revert + A).

Definition ret {A} (a : A) : Tx A := fun w => (w, inr a).

Definition bind {A B} (m : Tx A) (k : A -> Tx B) : Tx B := fun w =>
  match m w with
  | (w', inr a) => k a w'
  | (w', inl e) => (w', inl e)
  end.

Declare Scope tx_scope.
Delimit Scope tx_scope with tx.
Bind Scope tx_scope with Tx.
Notation "'let*' x ':=' m 'in' k" := (bind m (fun x => k))
  (at level 10, x name, m at level 100, k at level 200) : tx_scope.
Notation "m ';;' k" := (bind m (fun _ => k))
  (at level 100, k at level 200, right associativity) : tx_scope.
Local Open Scope tx_scope.

Definition require (cond : bool) (e : Revert) : Tx unit := fun w =>
  if cond then (w, inr tt) else (w, inl e).

Definition emit (ev : Event) : Tx unit := fun w =>
  (mkWorld (storage w) (log w ++ [ev]), inr tt).

Definition read_state (gameId : Z) : Tx GameState.t := fun w =>
  (w, inr (default GameState.zero (state (storage w) !! gameId))).

Definition read_gameHashOf (gameHash : Z) : Tx Z := fun w =>
  (w, inr (default 0 (gameHashOf (storage w) !! gameHash))).

Definition write_state (gameId : Z) (s : GameState.t) : Tx unit := fun w =>
  let st := storage w in
  (mkWorld (mkStorage (<[gameId := s]> (state st)) (gameHashOf st)
                      (moveConfirmed st)) (log w), inr tt).

Definition write_gameHashOf (gameHash gameId : Z) : Tx unit := fun w =>
  let st := storage w in
  (mkWorld (mkStorage (state st) (<[gameHash := gameId]> (gameHashOf st))
                      (moveConfirmed st)) (log w), inr tt).

Definition write_moveConfirmed (gameId moveNumber : Z) (b : bool)
  : Tx unit := fun w =>
  let st := storage w in
  (mkWorld (mkStorage (state st) (gameHashOf st)
              (<[(gameId, moveNumber) := b]> (moveConfirmed st)))
           (log w), inr tt).

(** [for (uint256 i = from; ...; i++)] with [n] iterations. *)
Fixpoint for_range (from : Z) (n : nat) (body : Z -> Tx unit) : Tx unit :=
  match n with
  | O => ret tt
  | S n' => body from ;; for_range (from + 1) n' body
  end.

(** [a + b] on [uint120]; Solidity 0.8 reverts on overflow. *)
Definition add_uint120 (a b : Z) : Tx Z :=
  if a + b <? 2 ^ 120 then ret (a + b) else (fun w => (w, inl Panic)).

(** Fixed-size calldata arrays [uint128[4]] and [uint8[3]]. *)
Definition uint128x4 : Type := Z * Z * Z * Z.
Definition uint8x3 : Type := Z * Z * Z.

Definition elems4 (a : uint128x4) : list Z :=
  let '(a0, a1, a2, a3) := a in [a0; a1; a2; a3].
Definition elems3 (a : uint8x3) : list Z :=
  let '(a0, a1, a2) := a in [a0; a1; a2].

(** [a[i]]; the contract only indexes within bounds. *)
Definition at4 (a : uint128x4) (i : Z) : Z := nth (Z.to_nat i) (elems4 a) 0.
Definition at3 (a : uint8x3) (i : Z) : Z := nth (Z.to_nat i) (elems3 a) 0.

(** [address(uint160(uint256(gameId) >> 96))] *)
Definition principalOf (gameId : Z) : Z := Z.shiftr gameId 96 mod 2 ^ 160.

(** [modifier correctGameId(address player, bytes32 gameId)] *)
Definition correctGameId (player gameId : Z) : Tx unit :=
  require (player =? principalOf gameId) GamePlayerInvalid.

Section Contract.
Context {H : Hash} {B : BoardLib}.

(** [function calculateSeed(bytes32 gameId, uint256 moveNumber)] *)
Definition calculateSeed (gameId moveNumber : Z) : Z :=
  keccak256 (Abi.encodePacked [gameId; moveNumber]).

(** [function startGame(bytes32 gameId, uint128[4] boards, uint8[3] moves)],
    called by [msg_sender] in block [block_number]. *)
Definition startGame (msg_sender block_number : Z)
    (gameId : Z) (boards : uint128x4) (moves : uint8x3) : Tx unit :=
  correctGameId msg_sender gameId ;;
  let* s := read_state gameId in
  require (GameState.board s =? 0) GameIdUsed ;;
  let hashedBoards := keccak256 (Abi.encodePacked (elems4 boards)) in
  let* h := read_gameHashOf hashedBoards in
  require (h =? 0) GamePlayed ;;
  require (validateStartPosition (at4 boards 0)) GameBoardInvalid ;;
  for_range 1 3 (fun i =>
    require
      (validateTransformation (at4 boards (i - 1)) (at3 moves (i - 1))
         (at4 boards i) (keccak256 (Abi.encodePacked [gameId; i])))
      GameBoardInvalid) ;;
  write_gameHashOf hashedBoards gameId ;;
  for_range 1 3 (fun i => write_moveConfirmed gameId i true) ;;
  write_state gameId (GameState.mk (at3 moves 2) 4 (at4 boards 3)) ;;
  emit (NewGame msg_sender gameId (at4 boards 3)) ;;
  emit (MoveConfirmed msg_sender gameId 3 block_number).

(** [function play(bytes32 gameId, uint8 move, uint128 resultBoard)] *)
Definition play (msg_sender block_number : Z)
    (gameId move resultBoard : Z) : Tx unit :=
  correctGameId msg_sender gameId ;;
  let* latestState := read_state gameId in
  require
    (validateTransformation (GameState.board latestState) move resultBoard
       (keccak256
          (Abi.encodePacked [gameId; GameState.nextMove latestState])))
    GameBoardInvalid ;;
  let currentMoveNumber := GameState.nextMove latestState in
  let* next := add_uint120 (GameState.nextMove latestState) 1 in
  write_state gameId (GameState.mk move next resultBoard) ;;
  write_moveConfirmed gameId currentMoveNumber true ;;
  emit (NewMove msg_sender gameId move resultBoard) ;;
  emit (MoveConfirmed msg_sender gameId currentMoveNumber block_number).

End Contract.

(** The views. *)
Definition nextMove (w : World) (gameId : Z) : Z :=
  GameState.nextMove (default GameState.zero (state (storage w) !! gameId)).

Definition latestBoard (w : World) (gameId : Z) : Z :=
  GameState.board (default GameState.zero (state (storage w) !! gameId)).

Definition isMoveConfirmed (w : World) (gameId moveNumber : Z) : bool :=
  default false (moveConfirmed (storage w) !! (gameId, moveNumber)).

(** An external call: a revert discards whatever the body did. *)
Definition call {A} (tx : Tx A) (w : World) : World * (Revert + A) :=
  match tx w with
  | (w', inr a) => (w', inr a)
  | (_, inl e) => (w, inl e)
  end.

(** The mutating entry points as requests, to speak of call sequences. *)
Inductive Request :=
  | StartGame (msg_sender block_number gameId : Z)
              (boards : uint128x4) (moves : uint8x3)
  | Play (msg_sender block_number gameId move resultBoard : Z).

Definition body `{Hash} `{BoardLib} (r : Request) : Tx unit :=
  match r with
  | StartGame c bn g bs ms => startGame c bn g bs ms
  | Play c bn g m rb => play c bn g m rb
  end.

Definition step `{Hash} `{BoardLib} (w : World) (r : Request) : World :=
  fst (call (body r) w).

Definition run `{Hash} `{BoardLib} (w : World) (rs : list Request) : World :=
  fold_left step rs w.

End Ledger.

(* ===================================================================== *)
(** * What a successful call commits                                      *)
(* ===================================================================== *)

Module Delta.
Import Ledger.
Section Delta.
Context {H : Hash} {B : BoardLib}.

(** The world after a [startGame] that passed every check: the three
    storage writes and the two events, as one update. *)
Definition started (msg_sender block_number gameId : Z)
    (boards : uint128x4) (moves : uint8x3) (w : World) : World :=
  let st := storage w in
  let hashedBoards := keccak256 (Abi.encodePacked (elems4 boards)) in
  mkWorld
    (mkStorage
       (<[gameId := GameState.mk (at3 moves 2) 4 (at4 boards 3)]> (state st))
       (<[hashedBoards := gameId]> (gameHashOf st))
       (<[(gameId, 3) := true]>
          (<[(gameId, 2) := true]>
             (<[(gameId, 1) := true]> (moveConfirmed st)))))
    (log w ++ [NewGame msg_sender gameId (at4 boards 3);
               MoveConfirmed msg_sender gameId 3 block_number]).

(** The world after a [play] that passed every check. *)
Definition played (msg_sender block_number gameId move resultBoard : Z)
    (w : World) : World :=
  let st := storage w in
  let n := nextMove w gameId in
  mkWorld
    (mkStorage
       (<[gameId := GameState.mk move (n + 1) resultBoard]> (state st))
       (gameHashOf st)
       (<[(gameId, n) := true]> (moveConfirmed st)))
    (log w ++ [NewMove msg_sender gameId move resultBoard;
               MoveConfirmed msg_sender gameId n block_number]).

(** An opening has been used when [gameHashOf] holds a non-zero
    identifier under its hash. *)
Definition openingUsed (w : World) (boards : uint128x4) : Prop :=
  default 0 (gameHashOf (storage w)
    !! keccak256 (Abi.encodePacked (elems4 boards))) <> 0.

End Delta.
End Delta.

(* ===================================================================== *)
(** * A concrete deployment and a concrete game                           *)
(* ===================================================================== *)

Module Reference.

(** One admissible bias: a decimal digit of the seed above its low 16
    bits, one value in ten giving exponent 2. *)
Definition spawnsFour (seed : Z) : bool := Z.shiftr seed 16 mod 10 =? 0.

(** One admissible exponent range: 0 to 15, the bound section 3 of the
    specification names. *)
Definition largestExponent : Z := 15.

Definition hash : Ledger.Hash := {| Ledger.keccak256 := Keccak.keccak256 |}.

Definition boardLib : Ledger.BoardLib :=
  {| Ledger.validateStartPosition := Board.validateStartPosition;
     Ledger.validateTransformation :=
       Board.validateTransformation spawnsFour largestExponent |}.

(** A player address and a game identifier carrying it in its high 160
    bits, with disambiguator 1. *)
Definition player : Z := 0xA11CE.
Definition gameId : Z := player * 2 ^ 96 + 1.

(** Another address, and an identifier of its own. *)
Definition stranger : Z := 0xB0B.
Definition otherId : Z := stranger * 2 ^ 96 + 7.

(** The start board has exponent 1 in cells 0 and 15; the three opening
    moves are LEFT, UP and RIGHT, and [play4] is the result of a fourth
    move, DOWN. *)
Definition start : Z := 0x01000000000000000000000000000001.
Definition after1 : Z := 0x00000001000000000002000000000001.
Definition after2 : Z := 0x00000000000000000000000001020002.
Definition after3 : Z := 0x00000000000000000000000001030001.
Definition play4 : Z := 0x01030001000000000000010000000000.

Definition opening : Ledger.uint128x4 := (start, after1, after2, after3).
Definition moves : Ledger.uint8x3 := (2, 0, 3).

(** The worlds of the reference game: after the opening, sent in block
    100, and after the fourth move, sent in block 101. *)
Definition opened : Ledger.World :=
  Delta.started (H := hash) player 100 gameId opening moves Ledger.genesis.
Definition moved : Ledger.World :=
  Delta.played player 101 gameId 1 play4 opened.

End Reference.

(* ===================================================================== *)
(** * Call sequences, getters and reachable worlds                        *)
(* ===================================================================== *)

Module Chain.
Import Ledger.

(** [msg.sender] and the [gameId] argument of a request. *)
Definition sender (r : Request) : Z :=
  match r with
  | StartGame c _ _ _ _ => c
  | Play c _ _ _ _ => c
  end.

Definition target (r : Request) : Z :=
  match r with
  | StartGame _ _ g _ _ => g
  | Play _ _ g _ _ => g
  end.

(** The getters Solidity generates for the public mappings [state] and
    [gameHashOf]. *)
Definition stateOf (w : World) (gameId : Z) : GameState.t :=
  default GameState.zero (state (storage w) !! gameId).

Definition gameOfHash (w : World) (gameHash : Z) : Z :=
  default 0 (gameHashOf (storage w) !! gameHash).

(** The fields [player] and [id] every event carries. *)
Definition eventPlayer (ev : Event) : Z :=
  match ev with
  | NewGame p _ _ => p
  | NewMove p _ _ _ => p
  | MoveConfirmed p _ _ _ => p
  end.

Definition eventId (ev : Event) : Z :=
  match ev with
  | NewGame _ g _ => g
  | NewMove _ g _ _ => g
  | MoveConfirmed _ g _ _ => g
  end.

Section Chain.
Context {H : Hash} {B : BoardLib}.

(** The worlds the contract can be in: those a sequence of calls leads to
    from the freshly deployed contract. *)
Definition reachable (w : World) : Prop := exists rs, w = run genesis rs.

(** A board library that never validates a transition to the zero
    board. *)
Definition rejectsZeroBoard : Prop :=
  forall prevBoard move seed,
    validateTransformation prevBoard move 0 seed = false.

End Chain.
End Chain.

(* ===================================================================== *)
(** * The client: gas parameters and the retrying HTTP helpers            *)
(* ===================================================================== *)

(** [src/hooks/useTransactions.tsx] and the [get]/[post] helpers it sends
    transactions with.  Amounts are [bigint]s, hence integers without
    bound; what the network answers is an input. *)
Module Client.

(** An awaited promise: it resolved with a value, or it rejected. *)
Inductive settled (A : Type) :=
  | Resolved (a : A)
  | Rejected.
Arguments Resolved {A} a.
Arguments Rejected {A}.

(** [parseGwei("0.5")], [parseGwei("1")], [parseGwei("2.0")] and
    [parseGwei("10.0")], in wei. *)
Definition gwei_0_5 : Z := 500000000.
Definition gwei_1 : Z := 1000000000.
Definition gwei_2 : Z := 2000000000.
Definition gwei_10 : Z := 10000000000.

Record GasPrices := mkGasPrices {
  maxFeePerGas : Z;
  maxPriorityFeePerGas : Z
}.

(** [x || parseGwei("1")] on a [bigint] that may be missing: [0n] is
    falsy, as [null] and [undefined] are. *)
Definition orOneGwei (x : option Z) : Z :=
  match x with
  | Some b => if b =? 0 then gwei_1 else b
  | None => gwei_1
  end.

(** [async function getCurrentGasPrices()], on the answers of
    [publicClient.getBlock()] (the [baseFeePerGas] of the block) and of
    [publicClient.getGasPrice()]. *)
Definition getCurrentGasPrices (getBlock : settled (option Z))
    (getGasPrice : settled Z) : GasPrices :=
  match getBlock, getGasPrice with
  | Resolved blockBaseFee, Resolved gasPrice =>
      let baseFeePerGas := orOneGwei blockBaseFee in
      let maxPriorityFeePerGas :=
        if baseFeePerGas <? gwei_1 then gwei_0_5 else gwei_2 in
      let calculatedMaxFee := baseFeePerGas * 2 + maxPriorityFeePerGas in
      let gasPriceBasedFee := gasPrice + maxPriorityFeePerGas in
      let maxFeePerGas :=
        if calculatedMaxFee >? gasPriceBasedFee then calculatedMaxFee
        else gasPriceBasedFee in
      if maxPriorityFeePerGas >=? maxFeePerGas
      then mkGasPrices (maxPriorityFeePerGas * 3) maxPriorityFeePerGas
      else mkGasPrices maxFeePerGas maxPriorityFeePerGas
  | _, _ => mkGasPrices gwei_10 gwei_2
  end.

(** [async function estimateGas(data)]: [userAddress] is [None] for the
    empty string the reference starts with; [networkEstimate] is the
    answer of [publicClient.estimateGas] for an account.  Division of
    [bigint]s truncates. *)
Definition estimateGas (userAddress : option Z)
    (networkEstimate : Z -> settled Z) : Z :=
  match userAddress with
  | None => 120000
  | Some privyUserAddress =>
      match networkEstimate privyUserAddress with
      | Resolved estimatedGas => Z.quot (estimatedGas * 125) 100
      | Rejected => 120000
      end
  end.

Section Retry.

(** Parsed response bodies and thrown values. *)
Variables (Json Err : Type).

(** How a call of [get] or [post] ends: it returns the parsed body or
    throws; [Thrown None] is [throw lastError] with [lastError] still
    [undefined]. *)
Inductive completion :=
  | Returned (json : Json)
  | Thrown (error : option Err).

(** The end of a call with the number of [fetch]es made and of
    [retryDelay] pauses taken. *)
Record Run := mkRun { result : completion; fetches : nat; waits : nat }.

(** What the [try] block of attempt number [k] yields: the body, or the
    value caught (a failed [fetch], a response that is not [ok], a body
    that does not parse). *)
Variable fetchAt : Z -> Err + Json.

(** [for (let attempt = 0; attempt <= retries; attempt++) { try ... }]
    followed by [throw lastError]. *)
Fixpoint attempts (fuel : nat) (retries attempt : Z)
    (lastError : option Err) (fetched waited : nat) : Run :=
  match fuel with
  | O => mkRun (Thrown lastError) fetched waited
  | S fuel' =>
      if attempt <=? retries then
        match fetchAt attempt with
        | inr json => mkRun (Returned json) (S fetched) waited
        | inl error =>
            if attempt =? retries
            then mkRun (Thrown (Some error)) (S fetched) waited
            else attempts fuel' retries (attempt + 1) (Some error)
                   (S fetched) (S waited)
        end
      else mkRun (Thrown lastError) fetched waited
  end.

(** [export async function post({ ..., retries = 3, retryDelay })] *)
Definition post (retries : Z) : Run :=
  attempts (S (Z.to_nat (retries + 1))) retries 0 None 0 0.

(** [export async function get({ ..., retries = 3, retryDelay })]: the
    same loop around a [GET]. *)
Definition get (retries : Z) : Run :=
  attempts (S (Z.to_nat (retries + 1))) retries 0 None 0 0.

End Retry.

Arguments Returned {Json Err} json.
Arguments Thrown {Json Err} error.
Arguments mkRun {Json Err} result fetches waits.
Arguments result {Json Err} r.
Arguments fetches {Json Err} r.
Arguments waits {Json Err} r.
Arguments attempts {Json Err} fetchAt fuel retries attempt lastError
  fetched waited.
Arguments post {Json Err} fetchAt retries.
Arguments get {Json Err} fetchAt retries.

End Client.

(* ===================================================================== *)
(** * The client: nonce and balance bookkeeping                           *)
(* ===================================================================== *)

(** [initializeGameTransaction] and [playNewMoveTransaction] of
    [src/hooks/useTransactions.tsx] on the references [userNonce] and
    [userBalance].  The nonce is a JavaScript number, exact far beyond any
    transaction count; the balance is a [bigint], in wei. *)
Module Wallet.

(** [userNonce = useRef(0)], a JavaScript number that holds a count (0,
    or what [getTransactionCount] answered), and [userBalance =
    useRef(0n)], a bigint. *)
Record t := mk { userNonce : Z; userBalance : Z }.

(** The JavaScript number an exact integer result is rounded to: a number
    carries 53 significant bits, the bits that do not fit are dropped, and
    the result goes to the nearer neighbour, or, midway between two, to
    the one whose last kept bit is zero. *)
Definition toNumber (z : Z) : Z :=
  let m := Z.abs z in
  let drop := Z.log2 m - 52 in
  if drop <=? 0 then z
  else
    let kept := Z.shiftr m drop in
    let rest := Z.land m (Z.ones drop) in
    let half := Z.shiftl 1 (drop - 1) in
    let up := (half <? rest) || ((rest =? half) && Z.odd kept) in
    Z.sgn z * Z.shiftl (if up then kept + 1 else kept) drop.

(** [Number.MAX_SAFE_INTEGER + 1]: up to here every integer is a
    number. *)
Definition exactLimit : Z := 2 ^ 53.

(** [parseEther("0.0075")] and [parseEther("0.005")]. *)
Definition ether_0_0075 : Z := 7500000000000000.
Definition ether_0_005 : Z := 5000000000000000.

(** How a call ends: it threw before anything was sent, or it handed a
    transaction with a nonce to [sendRawTransactionAndConfirm], which
    resolved ([delivered]) or rejected. *)
Inductive Outcome :=
  | Refused
  | Sent (nonce : Z) (delivered : bool).

Section Wallet.

(** [parseFloat(formatEther(balance)) < 0.01], a comparison of floating
    point numbers, is taken as given. *)
Variable tooPoor : Z -> bool.

(** [async function initializeGameTransaction(gameId, boards, moves)]:
    [encodes] tells whether [encodeFunctionData] accepts the arguments,
    [delivered] whether the send resolves. *)
Definition initializeGameTransaction (encodes delivered : bool) (w : t)
  : t * Outcome :=
  let balance := userBalance w in
  if tooPoor balance then (w, Refused)
  else if negb encodes then (w, Refused)
  else
    let nonce := userNonce w in
    (mk (toNumber (nonce + 1)) (balance - ether_0_0075), Sent nonce delivered).

(** [async function playNewMoveTransaction(gameId, board, move,
    moveCount)] *)
Definition playNewMoveTransaction (encodes delivered : bool) (w : t)
  : t * Outcome :=
  let balance := userBalance w in
  if tooPoor balance then (w, Refused)
  else if negb encodes then (w, Refused)
  else
    let nonce := userNonce w in
    (mk (toNumber (nonce + 1)) (balance - ether_0_005), Sent nonce delivered).

(** Calls made one after the other. *)
Inductive Action :=
  | InitializeGame (encodes delivered : bool)
  | PlayNewMove (encodes delivered : bool).

Definition perform (a : Action) (w : t) : t * Outcome :=
  match a with
  | InitializeGame e d => initializeGameTransaction e d w
  | PlayNewMove e d => playNewMoveTransaction e d w
  end.

Fixpoint performAll (actions : list Action) (w : t) : t * list Outcome :=
  match actions with
  | [] => (w, [])
  | a :: rest =>
      let '(w1, o) := perform a w in
      let '(w2, os) := performAll rest w1 in
      (w2, o :: os)
  end.

End Wallet.

(** The nonces of the transactions that were sent, in order. *)
Fixpoint sentNonces (os : list Outcome) : list Z :=
  match os with
  | [] => []
  | Refused :: rest => sentNonces rest
  | Sent nonce _ :: rest => nonce :: sentNonces rest
  end.

(** [n; n + 1; ...], [k] numbers. *)
Fixpoint countFrom (n : Z) (k : nat) : list Z :=
  match k with
  | O => []
  | S k' => n :: countFrom (n + 1) k'
  end.

End Wallet.

(* ===================================================================== *)
(** * Further worlds and answers for the reference game                   *)
(* ===================================================================== *)

Module Scenario.
Import Reference.

(** The reference game as it would stand on the last move number a
    [uint120] holds, and the board a move DOWN leads to under the seed of
    that move number. *)
Definition lastMoveNumber : Z := 2 ^ 120 - 1.
Definition atLimit : Ledger.World :=
  Ledger.mkWorld
    (Ledger.mkStorage {[ gameId := GameState.mk 3 lastMoveNumber after3 ]}
       ∅ ∅) [].
Definition pastLimit : Z := 0x01030001000000000000000000000001.

(** Calls that leave the reference game alone: one under another
    identifier, one under its identifier from a stranger. *)
Definition foreignCalls : list Ledger.Request :=
  [Ledger.StartGame stranger 102 otherId opening moves;
   Ledger.Play stranger 103 gameId 1 play4].

(** A server whose first two answers are failures (each throwing its
    attempt number) and whose later answers are the body 42; and one that
    never answers. *)
Definition flaky (attempt : Z) : Z + Z :=
  if attempt <? 2 then inl attempt else inr 42.
Definition down (attempt : Z) : Z + Z := inl attempt.

(** A wallet three sends away from the last nonce that still counts up,
    and the balance check of the examples, which refuses below 0.01
    ether. *)
Definition nearLimit : Wallet.t := Wallet.mk (2 ^ 53 - 3) (10 ^ 18).
Definition belowMinimum (balance : Z) : bool := balance <? 10 ^ 16.

End Scenario.

(* ===================================================================== *)
(** * Test vectors of the hash                                            *)
(* ===================================================================== *)

Module KeccakFacts.

Example keccak256_empty :
  Keccak.keccak256 []
  = 0xc5d2460186f7233c927e7db2dcc703c0e500b653ca82273b7bfad8045d85a470.
Proof. vm_compute. reflexivity. Qed.

Example keccak256_abc :
  Keccak.keccak256 [97; 98; 99]
  = 0x4e03657aea45a94fc7d47ba826c8d667c0d1e6e33a64a036ec44f58fa12d6c45.
Proof. vm_compute. reflexivity. Qed.

(** The digest of 64 zero bytes: storage slot of key 0 in mapping 0. *)
Example keccak256_zero_words :
  Keccak.keccak256 (Abi.encodePacked [0; 0])
  = 0xad3228b676f7d3cd4284a5443f17f1962b36e491b30a40b2405849e597ba5fb5.
Proof. vm_compute. reflexivity. Qed.

(** The digest of [uint256(1)]: first element of a dynamic array in slot
    1.  The word is encoded most significant byte first. *)
Example keccak256_word_one :
  Keccak.keccak256 (Abi.encodePacked [1])
  = 0xb10e2d527612073b26eecdfd717e6a320cf44b4afac2b0732d9fcbe2b7fa0cf6.
Proof. vm_compute. reflexivity. Qed.

End KeccakFacts.

(* ===================================================================== *)
(** * The board library: codec, lines, and the validator                  *)
(* ===================================================================== *)

Module BoardFacts.
Import Board.

Lemma testbit_small (e n : Z) :
  0 <= e <= maxExponent -> fieldWidth <= n -> Z.testbit e n = false.
Proof.
  unfold maxExponent, fieldWidth. intros He Hn.
  destruct (Z.eq_dec e 0) as [->|Hz]; [apply Z.bits_0|].
  apply Z.bits_above_log2; [lia|].
  assert (Z.log2 e < 8); [|lia].
  apply Z.log2_lt_pow2; [lia|]. change (Z.ones 8) with 255 in He. lia.
Qed.

Lemma tileAt_bits (b : Z) (i : nat) (n : Z) :
  0 <= n ->
  Z.testbit (tileAt b i) n
  = Z.testbit b (n + offset i) && (n <? fieldWidth).
Proof.
  intros Hn. unfold tileAt.
  rewrite Z.land_spec, Z.shiftr_spec by lia.
  f_equal. unfold fieldWidth.
  destruct (Z.ltb_spec n 8).
  - apply Z.ones_spec_low; lia.
  - apply Z.ones_spec_high; lia.
Qed.

Lemma offset_nonneg (i : nat) : 0 <= offset i.
Proof. unfold offset, fieldWidth. lia. Qed.

Lemma putTile_bits (b : Z) (i : nat) (e : Z) (m : Z) :
  0 <= m ->
  Z.testbit (putTile b i e) m
  = (Z.testbit b m && negb ((offset i <=? m) && (m <? offset i + fieldWidth)))
    || Z.testbit e (m - offset i).
Proof.
  intros Hm. pose proof (offset_nonneg i) as Ho. unfold putTile.
  rewrite Z.lor_spec, Z.land_spec, Z.lnot_spec by lia.
  rewrite !Z.shiftl_spec by lia.
  f_equal. f_equal. f_equal. unfold fieldWidth.
  destruct (Z.leb_spec (offset i) m); simpl.
  - destruct (Z.ltb_spec m (offset i + 8)).
    + apply Z.ones_spec_low; lia.
    + apply Z.ones_spec_high; lia.
  - apply Z.testbit_neg_r; lia.
Qed.

Lemma tileAt_putTile_eq (b : Z) (i : nat) (e : Z) :
  0 <= e <= maxExponent -> tileAt (putTile b i e) i = e.
Proof.
  intros He. apply Z.bits_inj'. intros n Hn.
  pose proof (offset_nonneg i) as Ho.
  rewrite tileAt_bits, putTile_bits by lia.
  replace (n + offset i - offset i) with n by lia.
  destruct (Z.ltb_spec n fieldWidth).
  - replace (offset i <=? n + offset i) with true by (symmetry; apply Z.leb_le; lia).
    replace (n + offset i <? offset i + fieldWidth) with true
      by (symmetry; apply Z.ltb_lt; lia).
    simpl. rewrite andb_false_r, andb_true_r. reflexivity.
  - rewrite andb_false_r. symmetry. apply testbit_small; lia.
Qed.

Lemma tileAt_putTile_ne (b : Z) (i j : nat) (e : Z) :
  i <> j -> 0 <= e <= maxExponent ->
  tileAt (putTile b i e) j = tileAt b j.
Proof.
  intros Hij He. apply Z.bits_inj'. intros n Hn.
  pose proof (offset_nonneg i) as Hi. pose proof (offset_nonneg j) as Hj.
  rewrite !tileAt_bits, putTile_bits by lia.
  destruct (Z.ltb_spec n fieldWidth); [|rewrite !andb_false_r; reflexivity].
  rewrite !andb_true_r.
  assert (Hout : n + offset j < offset i \/ offset i + fieldWidth <= n + offset j).
  { assert (i < j \/ j < i)%nat as [Hlt|Hlt] by lia; unfold offset, fieldWidth in *; [right|left]; lia. }
  destruct Hout as [Hlo|Hhi].
  - rewrite (Z.testbit_neg_r e) by lia. rewrite orb_false_r.
    replace (offset i <=? n + offset j) with false
      by (symmetry; apply Z.leb_gt; lia).
    apply andb_true_r.
  - rewrite (testbit_small e) by lia. rewrite orb_false_r.
    replace (n + offset j <? offset i + fieldWidth) with false
      by (symmetry; apply Z.ltb_ge; lia).
    rewrite andb_false_r. apply andb_true_r.
Qed.

Lemma setTile_Ok (b : Z) (i : nat) (e : Z) (b' : Z) :
  setTile b i e = Ok b' ->
  (i < cells)%nat /\ 0 <= e <= maxExponent /\ b' = putTile b i e.
Proof.
  unfold setTile. destruct (Nat.ltb_spec i cells); simpl; [|discriminate].
  destruct (Z.leb_spec 0 e); simpl; [|discriminate].
  destruct (Z.leb_spec e maxExponent); simpl; [|discriminate].
  intros [= <-]. auto.
Qed.

Lemma setTile_in_range (b : Z) (i : nat) (e : Z) :
  (i < cells)%nat -> 0 <= e <= maxExponent ->
  setTile b i e = Ok (putTile b i e).
Proof.
  intros Hi He. unfold setTile.
  destruct (Nat.ltb_spec i cells); [|lia]. simpl.
  destruct (Z.leb_spec 0 e); [|lia].
  destruct (Z.leb_spec e maxExponent); [|lia]. reflexivity.
Qed.

(** ** One line *)

Lemma mergeLine_shrinks (n : nat) : forall l : list Z,
  (length l <= n)%nat ->
  (length (mergeLine l) <= length l)%nat
  /\ (length (mergeLine l) = length l -> mergeLine l = l).
Proof.
  induction n as [|n IH]; intros l Hl.
  - destruct l; simpl in *; [auto|lia].
  - destruct l as [|a [|b rest]]; simpl in *; [auto|auto|].
    destruct (a =? b).
    + destruct (IH rest ltac:(lia)) as [Hle _]. simpl. split; lia.
    + destruct (IH (b :: rest) ltac:(simpl; lia)) as [Hle Hfix].
      simpl in *. split; [lia|].
      intros Hlen. f_equal. apply Hfix. lia.
Qed.

Lemma filter_full {A} (p : A -> bool) (l : list A) :
  length (List.filter p l) = length l -> List.filter p l = l.
Proof.
  induction l as [|a l IH]; simpl; [reflexivity|].
  pose proof (List.filter_length_le p l) as Hle.
  destruct (p a); simpl; intros Hlen.
  - f_equal. apply IH. lia.
  - lia.
Qed.

Lemma slideLine_length (line : list Z) :
  length (slideLine line) = length line.
Proof.
  unfold slideLine.
  pose proof (List.filter_length_le nonEmpty line) as Hf.
  destruct (mergeLine_shrinks _ (List.filter nonEmpty line) (le_n _)) as [Hm _].
  rewrite length_app, repeat_length. lia.
Qed.

Lemma slideLine_same_or_gap (line : list Z) :
  slideLine line = line \/ In 0 (slideLine line).
Proof.
  unfold slideLine.
  pose proof (List.filter_length_le nonEmpty line) as Hf.
  destruct (mergeLine_shrinks _ (List.filter nonEmpty line) (le_n _)) as [Hm Hfix].
  destruct (Nat.eq_dec (length (mergeLine (List.filter nonEmpty line)))
                       (length line)) as [Heq|Hne].
  - left. rewrite Heq, Nat.sub_diag. simpl. rewrite app_nil_r.
    rewrite Hfix by lia. apply filter_full. lia.
  - right. apply in_or_app. right.
    destruct (length line - length (mergeLine (List.filter nonEmpty line)))%nat
      eqn:Hk; [lia|]. simpl. auto.
Qed.

(** ** The whole grid *)

Ltac slide_line l :=
  let r := fresh "r" in
  let Hlen := fresh "Hlen" in
  let Hcase := fresh "Hcase" in
  pose proof (slideLine_length l) as Hlen;
  pose proof (slideLine_same_or_gap l) as Hcase;
  remember (slideLine l) as r;
  destruct r as [|? [|? [|? [|? [|? ?]]]]]; simpl in Hlen; try discriminate Hlen;
  clear Hlen.

Lemma shiftTiles_same_or_gap (m : Move) (tiles : list Z) :
  length tiles = cells ->
  length (shiftTiles m tiles) = cells
  /\ (shiftTiles m tiles = tiles \/ In 0 (shiftTiles m tiles)).
Proof.
  intros Hlen.
  do 16 (destruct tiles as [|? tiles]; [discriminate Hlen|]).
  destruct tiles; [clear Hlen|discriminate Hlen].
  destruct m; unfold shiftTiles, lineIndices, extractLine;
    cbn [fold_left map nth];
    match goal with |- context [slideLine ?l] => slide_line l end;
    match goal with |- context [slideLine ?l] => slide_line l end;
    match goal with |- context [slideLine ?l] => slide_line l end;
    match goal with |- context [slideLine ?l] => slide_line l end;
    cbn; (split; [reflexivity|]);
    repeat match goal with
           | H : _ = _ \/ In 0 _ |- _ => destruct H as [H|H]
           end;
    try (left; congruence);
    right; cbn in *; tauto.
Qed.

(** ** Words of 128 bits *)

Lemma below_pow2_of_bits (x n : Z) :
  0 <= n -> 0 <= x ->
  (forall m, n <= m -> Z.testbit x m = false) -> x < 2 ^ n.
Proof.
  intros Hn Hx Hbits.
  destruct (Z.eq_dec x 0) as [->|Hnz]; [apply Z.pow_pos_nonneg; lia|].
  apply Z.log2_lt_pow2; [lia|].
  destruct (Z_lt_le_dec (Z.log2 x) n) as [Hlt|Hge]; [exact Hlt|].
  pose proof (Z.bit_log2 x ltac:(lia)) as Htop.
  rewrite Hbits in Htop by exact Hge. discriminate.
Qed.

Lemma bits_above_pow2 (x n m : Z) :
  0 <= x < 2 ^ n -> n <= m -> Z.testbit x m = false.
Proof.
  intros Hx Hm.
  destruct (Z.eq_dec x 0) as [->|Hnz]; [apply Z.bits_0|].
  apply Z.bits_above_log2; [lia|].
  assert (Z.log2 x < n); [|lia].
  apply Z.log2_lt_pow2; lia.
Qed.

Lemma putTile_range (b : Z) (i : nat) (e : Z) :
  0 <= b < 2 ^ boardWidth -> (i < cells)%nat -> 0 <= e <= maxExponent ->
  0 <= putTile b i e < 2 ^ boardWidth.
Proof.
  intros Hb Hi He. pose proof (offset_nonneg i) as Ho.
  assert (Hnn : 0 <= putTile b i e).
  { unfold putTile. apply Z.lor_nonneg. split.
    - apply Z.land_nonneg. left. lia.
    - apply Z.shiftl_nonneg. lia. }
  split; [exact Hnn|].
  apply below_pow2_of_bits; [unfold boardWidth, fieldWidth, cells; lia|exact Hnn|].
  intros m Hm.
  assert (Hm0 : 0 <= m) by (unfold boardWidth, fieldWidth, cells in Hm; lia).
  rewrite putTile_bits by exact Hm0.
  rewrite (bits_above_pow2 b boardWidth m Hb Hm). cbn [andb orb].
  apply testbit_small; [exact He|].
  unfold boardWidth, offset, fieldWidth, cells in *. lia.
Qed.

Lemma tileAt_range (b : Z) (i : nat) : 0 <= tileAt b i <= maxExponent.
Proof.
  unfold tileAt, maxExponent, fieldWidth.
  rewrite Z.land_ones by lia.
  pose proof (Z.mod_pos_bound (Z.shiftr b (offset i)) (2 ^ 8) ltac:(lia)).
  change (Z.ones 8) with 255. change (2 ^ 8) with 256 in *. lia.
Qed.

(** ** Tiles put together and taken apart *)

Lemma assembleFrom_tiles (tiles : list Z) : forall (i : nat) (acc : Z),
  (i + length tiles <= cells)%nat ->
  Forall (fun t => 0 <= t <= maxExponent) tiles ->
  0 <= acc < 2 ^ boardWidth ->
  0 <= assembleFrom i tiles acc < 2 ^ boardWidth
  /\ (forall j, (j < i)%nat -> tileAt (assembleFrom i tiles acc) j = tileAt acc j)
  /\ (forall k, (k < length tiles)%nat
                -> tileAt (assembleFrom i tiles acc) (i + k) = nth k tiles 0).
Proof.
  induction tiles as [|t tiles IH]; intros i acc Hlen Hall Hacc;
    cbn [assembleFrom length] in *.
  - split; [exact Hacc|]. split; [reflexivity|]. intros k Hk. lia.
  - inversion Hall as [|? ? Ht Hrest]; subst.
    destruct (IH (S i) (putTile acc i t)) as (Hr & Hlow & Hhigh);
      [lia|exact Hrest|apply putTile_range; [exact Hacc|lia|exact Ht]|].
    split; [exact Hr|]. split.
    + intros j Hj. rewrite Hlow by lia. apply tileAt_putTile_ne; [lia|exact Ht].
    + intros [|k] Hk.
      * rewrite Nat.add_0_r, Hlow by lia. apply tileAt_putTile_eq, Ht.
      * replace (i + S k)%nat with (S i + k)%nat by lia. apply Hhigh. lia.
Qed.

Lemma unpack_length (b : Z) : length (unpack b) = cells.
Proof. unfold unpack. rewrite length_map, length_seq. reflexivity. Qed.

Lemma unpack_nth (b : Z) (i : nat) :
  (i < cells)%nat -> nth i (unpack b) 0 = tileAt b i.
Proof.
  intros Hi. unfold cells in Hi.
  do 16 (destruct i as [|i]; [reflexivity|]). lia.
Qed.

Lemma unpack_eq (b : Z) (tiles : list Z) :
  length tiles = cells ->
  (forall k, (k < cells)%nat -> tileAt b k = nth k tiles 0) ->
  unpack b = tiles.
Proof.
  intros Hlen Hk.
  apply (nth_ext _ _ 0 0); [rewrite unpack_length; symmetry; exact Hlen|].
  intros n Hn. rewrite unpack_length in Hn.
  rewrite unpack_nth by exact Hn. apply Hk, Hn.
Qed.

Lemma unpack_assemble (tiles : list Z) :
  length tiles = cells ->
  Forall (fun t => 0 <= t <= maxExponent) tiles ->
  0 <= assemble tiles < 2 ^ boardWidth /\ unpack (assemble tiles) = tiles.
Proof.
  intros Hlen Hall. unfold assemble.
  destruct (assembleFrom_tiles tiles 0 0) as (Hr & _ & Hk);
    [lia|exact Hall|split; [lia|reflexivity]|].
  split; [exact Hr|]. apply unpack_eq; [exact Hlen|].
  intros k Hlt. apply (Hk k). lia.
Qed.

Lemma unpack_putTile (b : Z) (i : nat) (e : Z) :
  (i < cells)%nat -> 0 <= e <= maxExponent ->
  unpack (putTile b i e) = <[i := e]> (unpack b).
Proof.
  intros Hi He. apply unpack_eq.
  - rewrite length_insert. apply unpack_length.
  - intros k Hk. destruct (Nat.eq_dec i k) as [->|Hne].
    + rewrite tileAt_putTile_eq by exact He.
      symmetry. apply nth_lookup_Some with (d := 0).
      apply list_lookup_insert_eq. rewrite unpack_length. exact Hk.
    + rewrite tileAt_putTile_ne by assumption.
      rewrite <- (unpack_nth b k Hk).
      rewrite !nth_lookup, list_lookup_insert_ne by exact Hne. reflexivity.
Qed.

Lemma emptyCells_unpack (b : Z) : emptyCells b = emptyPositions (unpack b).
Proof.
  unfold emptyCells, emptyPositions. rewrite unpack_length.
  apply List.filter_ext_in. intros i Hi. apply in_seq in Hi.
  rewrite unpack_nth by lia. reflexivity.
Qed.

Lemma emptyPositions_bound (tiles : list Z) (i : nat) :
  In i (emptyPositions tiles) -> (i < length tiles)%nat /\ nth i tiles 0 = 0.
Proof.
  unfold emptyPositions. rewrite List.filter_In, in_seq, Z.eqb_eq. lia.
Qed.

Lemma emptyPositions_of_gap (tiles : list Z) :
  In 0 tiles -> emptyPositions tiles <> [].
Proof.
  intros Hin. apply (In_nth _ _ 0) in Hin as (k & Hk & Hnth).
  assert (Hik : In k (emptyPositions tiles)).
  { unfold emptyPositions. apply List.filter_In. split.
    - apply in_seq. lia.
    - rewrite Hnth. reflexivity. }
  intros Hnil. rewrite Hnil in Hik. exact Hik.
Qed.

Lemma validBoard_tiles (largestExponent b : Z) :
  validBoard largestExponent b = true ->
  0 <= b < 2 ^ boardWidth
  /\ Forall (fun t => 0 <= t <= largestExponent) (unpack b).
Proof.
  unfold validBoard. intros Hv.
  apply andb_prop in Hv as [Hw Ht]. apply andb_prop in Hw as [H0 H1].
  apply Z.leb_le in H0. apply Z.ltb_lt in H1. split; [lia|].
  rewrite forallb_forall in Ht. apply List.Forall_forall. intros t Hin.
  specialize (Ht t Hin). apply Z.leb_le in Ht. split; [|exact Ht].
  unfold unpack in Hin. apply in_map_iff in Hin as (i & <- & _).
  apply tileAt_range.
Qed.

(** ** Exponents after a move *)

Lemma mergeLine_range (top : Z) (n : nat) : forall l : list Z,
  (length l <= n)%nat ->
  Forall (fun t => 0 <= t <= top) l ->
  Forall (fun t => 0 <= t <= top + 1) (mergeLine l).
Proof.
  induction n as [|n IH]; intros l Hl Hall.
  - destruct l; [constructor|simpl in Hl; lia].
  - destruct l as [|a [|b rest]]; cbn [mergeLine].
    + constructor.
    + inversion Hall; subst. constructor; [lia|constructor].
    + inversion Hall as [|? ? Ha Hall']; subst.
      inversion Hall' as [|? ? Hb Hrest]; subst.
      simpl in Hl. destruct (a =? b).
      * constructor; [lia|]. apply IH; [lia|exact Hrest].
      * constructor; [lia|].
        exact (IH (b :: rest) ltac:(simpl; lia) Hall').
Qed.

Lemma slideLine_range (top : Z) (line : list Z) :
  0 <= top ->
  Forall (fun t => 0 <= t <= top) line ->
  Forall (fun t => 0 <= t <= top + 1) (slideLine line).
Proof.
  intros Htop Hall. unfold slideLine. apply Forall_app. split.
  - apply (mergeLine_range top _ _ (le_n _)).
    apply List.Forall_forall. intros t Hin.
    apply List.filter_In in Hin as [Hin _].
    rewrite List.Forall_forall in Hall. exact (Hall t Hin).
  - apply List.Forall_forall. intros t Hin.
    apply repeat_spec in Hin as ->. lia.
Qed.

Ltac slide_line_range top Htop l :=
  let r := fresh "r" in
  let Hlen := fresh "Hlen" in
  let Hr := fresh "Hr" in
  pose proof (slideLine_length l) as Hlen;
  assert (Hr : Forall (fun t => 0 <= t <= top + 1) (slideLine l))
    by (apply (slideLine_range top);
        [exact Htop|repeat (constructor 2; [assumption|]); constructor 1]);
  remember (slideLine l) as r;
  destruct r as [|? [|? [|? [|? [|? ?]]]]]; simpl in Hlen; try discriminate Hlen;
  clear Hlen;
  repeat match goal with
         | H : Forall _ (_ :: _) |- _ => inversion H; subst; clear H
         | H : Forall _ [] |- _ => clear H
         end.

Lemma shiftTiles_range (top : Z) (m : Move) (tiles : list Z) :
  0 <= top ->
  length tiles = cells ->
  Forall (fun t => 0 <= t <= top) tiles ->
  Forall (fun t => 0 <= t <= top + 1) (shiftTiles m tiles).
Proof.
  intros Htop Hlen Hall.
  do 16 (destruct tiles as [|? tiles]; [discriminate Hlen|]).
  destruct tiles; [clear Hlen|discriminate Hlen].
  repeat match goal with
         | H : Forall _ (_ :: _) |- _ => inversion H; subst; clear H
         | H : Forall _ [] |- _ => clear H
         end.
  destruct m; unfold shiftTiles, lineIndices, extractLine;
    cbn [fold_left map nth];
    match goal with |- context [slideLine ?l] => slide_line_range top Htop l end;
    match goal with |- context [slideLine ?l] => slide_line_range top Htop l end;
    match goal with |- context [slideLine ?l] => slide_line_range top Htop l end;
    match goal with |- context [slideLine ?l] => slide_line_range top Htop l end;
    cbn; repeat (constructor 2; [assumption|]); constructor 1.
Qed.

(** ** A packed board is its sixteen tiles *)

Lemma unpack_injective (R R' : Z) :
  0 <= R < 2 ^ boardWidth -> 0 <= R' < 2 ^ boardWidth ->
  unpack R = unpack R' -> R = R'.
Proof.
  intros HR HR' Heq. apply Z.bits_inj'. intros m Hm.
  destruct (Z_lt_le_dec m boardWidth) as [Hlt|Hge].
  - assert (Hi : (Z.to_nat (m / 8) < cells)%nat).
    { unfold boardWidth, cells, fieldWidth in *.
      apply Nat2Z.inj_lt. rewrite Z2Nat.id by (apply Z.div_pos; lia).
      apply Z.div_lt_upper_bound; lia. }
    assert (Ht : tileAt R (Z.to_nat (m / 8)) = tileAt R' (Z.to_nat (m / 8))).
    { rewrite <- !unpack_nth by exact Hi. rewrite Heq. reflexivity. }
    apply (f_equal (fun t => Z.testbit t (m mod 8))) in Ht.
    pose proof (Z.mod_pos_bound m 8 ltac:(lia)) as Hmod.
    rewrite !tileAt_bits in Ht by lia.
    replace (m mod 8 + offset (Z.to_nat (m / 8))) with m in Ht.
    + replace (m mod 8 <? fieldWidth) with true in Ht
        by (symmetry; apply Z.ltb_lt; unfold fieldWidth; lia).
      rewrite !andb_true_r in Ht. exact Ht.
    + unfold offset, fieldWidth. rewrite Z2Nat.id by (apply Z.div_pos; lia).
      pose proof (Z.div_mod m 8 ltac:(lia)). lia.
  - rewrite (bits_above_pow2 R boardWidth m HR Hge).
    rewrite (bits_above_pow2 R' boardWidth m HR' Hge). reflexivity.
Qed.

(** ** The simulator on a valid board *)

Lemma simulateMove_valid (largestExponent B : Z) (M : Move) :
  largestExponent < maxExponent ->
  validBoard largestExponent B = true ->
  0 <= fst (fst (simulateMove B M)) < 2 ^ boardWidth
  /\ unpack (fst (fst (simulateMove B M))) = shiftTiles M (unpack B)
  /\ (snd (fst (simulateMove B M)) = true
      -> emptyCells (fst (fst (simulateMove B M))) <> []).
Proof.
  intros Hroom Hv. apply validBoard_tiles in Hv as [_ Htiles].
  assert (Htop : 0 <= largestExponent).
  { unfold unpack in Htiles. cbn [cells seq map] in Htiles.
    apply Forall_inv in Htiles. lia. }
  unfold simulateMove. cbn [fst snd].
  destruct (shiftTiles_same_or_gap M (unpack B) (unpack_length B))
    as [Hlen Hcase].
  assert (Hrange : Forall (fun t => 0 <= t <= maxExponent)
                     (shiftTiles M (unpack B))).
  { apply (Forall_impl _ _ _
             (shiftTiles_range largestExponent M (unpack B)
                Htop (unpack_length B) Htiles)).
    intros t Ht. lia. }
  destruct (unpack_assemble _ Hlen Hrange) as [Hr Hun].
  split; [exact Hr|]. split; [exact Hun|].
  intros Hmerged. rewrite emptyCells_unpack, Hun.
  destruct Hcase as [Hsame|Hzero].
  - rewrite bool_decide_eq_true_2 in Hmerged by exact Hsame. discriminate.
  - apply emptyPositions_of_gap, Hzero.
Qed.

Section Spawn.
Variable spawnsFour : Z -> bool.
Variable largestExponent : Z.

(** The field has room for one merge above the exponent range. *)
Hypothesis headroom : largestExponent < maxExponent.

Lemma chooseSpawn_total (b seed : Z) :
  emptyCells b <> [] ->
  exists i e,
    chooseSpawn spawnsFour b seed = Ok (i, e)
    /\ i = nth (Z.to_nat (seed mod Z.of_nat (length (emptyCells b))))
             (emptyCells b) 0%nat
    /\ e = (if spawnsFour seed then 2 else 1)
    /\ (i < cells)%nat /\ 0 <= e <= maxExponent.
Proof.
  intros Hne. unfold chooseSpawn.
  destruct (emptyCells b) as [|c cs] eqn:Hes; [congruence|].
  eexists _, _. split; [reflexivity|]. split; [reflexivity|].
  split; [reflexivity|]. split.
  - assert (Hin : In (nth (Z.to_nat (seed mod Z.of_nat (length (c :: cs))))
                        (c :: cs) 0%nat) (emptyCells b)).
    { rewrite Hes. apply nth_In.
      assert (0 < Z.of_nat (length (c :: cs))) by (simpl; lia).
      pose proof (Z.mod_pos_bound seed _ H). lia. }
    rewrite emptyCells_unpack in Hin.
    apply emptyPositions_bound in Hin as [Hlt _].
    rewrite unpack_length in Hlt. exact Hlt.
  - change maxExponent with 255. destruct (spawnsFour seed); lia.
Qed.

(** The validator always answers: it has no failing run. *)
Lemma validateTransition_total (B : Z) (M : Move) (R seed : Z) :
  exists verdict,
    validateTransition spawnsFour largestExponent B M R seed = Ok verdict.
Proof.
  unfold validateTransition.
  destruct (validBoard largestExponent B) eqn:Hv; cbn [negb]; [|eauto].
  destruct (simulateMove_valid largestExponent B M headroom Hv)
    as (_ & _ & Hgap).
  destruct (simulateMove B M) as [[b merged] es]. cbn [fst snd] in Hgap.
  destruct merged; cbn [negb]; [|eauto].
  destruct (chooseSpawn_total b seed (Hgap eq_refl))
    as (i & e & Hspawn & _ & _ & Hi & He).
  rewrite Hspawn. cbn. rewrite (setTile_in_range b i e Hi He). cbn. eauto.
Qed.

(** Only a legal move has a result that validates. *)
Lemma validateTransition_only_legal (B : Z) (M : Move) (R seed : Z) :
  validateTransition spawnsFour largestExponent B M R seed = Ok true ->
  legalMove largestExponent B M = true.
Proof.
  unfold validateTransition, legalMove.
  destruct (validBoard largestExponent B); cbn [negb andb]; [|discriminate].
  destruct (simulateMove B M) as [[b merged] es]. cbn [fst snd].
  destruct merged; cbn [negb]; [reflexivity|discriminate].
Qed.


End Spawn.

End BoardFacts.

(* ===================================================================== *)
(** * The ledger                                                          *)
(* ===================================================================== *)

Module LedgerFacts.
Import Ledger Delta.
Section Facts.
Context {H : Hash} {B : BoardLib}.

Lemma startGame_unfold c bn g bs ms w :
  startGame c bn g bs ms w =
  if negb (c =? principalOf g) then (w, inl GamePlayerInvalid)
  else if negb (latestBoard w g =? 0) then (w, inl GameIdUsed)
  else if negb (default 0 (gameHashOf (storage w)
                  !! keccak256 (Abi.encodePacked (elems4 bs))) =? 0)
       then (w, inl GamePlayed)
  else if negb (validateStartPosition (at4 bs 0)) then (w, inl GameBoardInvalid)
  else if negb (validateTransformation (at4 bs 0) (at3 ms 0) (at4 bs 1)
                  (calculateSeed g 1)
                && validateTransformation (at4 bs 1) (at3 ms 1) (at4 bs 2)
                     (calculateSeed g 2)
                && validateTransformation (at4 bs 2) (at3 ms 2) (at4 bs 3)
                     (calculateSeed g 3))
       then (w, inl GameBoardInvalid)
  else (started c bn g bs ms w, inr tt).
Proof.
  unfold startGame, correctGameId, latestBoard, calculateSeed, started.
  unfold bind, require, read_state, read_gameHashOf.
  destruct (c =? principalOf g); cbn [negb]; [|reflexivity].
  destruct (GameState.board _ =? 0); cbn [negb]; [|reflexivity].
  destruct (default 0 _ =? 0); cbn [negb]; [|reflexivity].
  destruct (validateStartPosition _); cbn [negb]; [|reflexivity].
  cbn [for_range bind]. unfold bind, require.
  change (1 - 1) with 0. change (1 + 1 - 1) with 1. change (1 + 1 + 1 - 1) with 2.
  change (1 + 1) with 2. change (2 + 1) with 3.
  destruct (validateTransformation (at4 bs 0) _ _ _); cbn [negb andb]; [|reflexivity].
  destruct (validateTransformation (at4 bs 1) _ _ _); cbn [negb andb]; [|reflexivity].
  destruct (validateTransformation (at4 bs 2) _ _ _); cbn [negb andb]; [|reflexivity].
  unfold ret, write_gameHashOf, write_moveConfirmed, write_state, emit.
  cbn [storage log state gameHashOf moveConfirmed].
  rewrite <- app_assoc. reflexivity.
Qed.

Lemma play_unfold c bn g mv rb w :
  play c bn g mv rb w =
  if negb (c =? principalOf g) then (w, inl GamePlayerInvalid)
  else if negb (validateTransformation (latestBoard w g) mv rb
                  (calculateSeed g (nextMove w g)))
       then (w, inl GameBoardInvalid)
  else if negb (nextMove w g + 1 <? 2 ^ 120) then (w, inl Panic)
  else (played c bn g mv rb w, inr tt).
Proof.
  unfold play, correctGameId, latestBoard, nextMove, calculateSeed, played.
  unfold bind, require, read_state, add_uint120.
  destruct (c =? principalOf g); cbn [negb]; [|reflexivity].
  destruct (validateTransformation _ _ _ _); cbn [negb]; [|reflexivity].
  unfold nextMove.
  destruct (_ + 1 <? 2 ^ 120); cbn [negb]; [|reflexivity].
  unfold ret, write_moveConfirmed, write_state, emit.
  cbn [storage log state gameHashOf moveConfirmed].
  rewrite <- app_assoc. reflexivity.
Qed.

(** Every outcome of a body is one of the cases of its unfolding. *)
Ltac cases_of_body :=
  repeat match goal with
         | |- context [if negb ?b then _ else _] =>
             let E := fresh "E" in destruct b eqn:E; cbn [negb]
         | H : context [if negb ?b then _ else _] |- _ =>
             let E := fresh "E" in destruct b eqn:E; cbn [negb] in H
         end.

Lemma startGame_fails_clean c bn g bs ms w w' e :
  startGame c bn g bs ms w = (w', inl e) -> w' = w.
Proof.
  rewrite startGame_unfold. intros Hr. cases_of_body; congruence.
Qed.

Lemma play_fails_clean c bn g mv rb w w' e :
  play c bn g mv rb w = (w', inl e) -> w' = w.
Proof.
  rewrite play_unfold. intros Hr. cases_of_body; congruence.
Qed.

Lemma startGame_succeeds c bn g bs ms w w' :
  startGame c bn g bs ms w = (w', inr tt) -> w' = started c bn g bs ms w.
Proof.
  rewrite startGame_unfold. intros Hr. cases_of_body; congruence.
Qed.

Lemma play_succeeds c bn g mv rb w w' :
  play c bn g mv rb w = (w', inr tt) -> w' = played c bn g mv rb w.
Proof.
  rewrite play_unfold. intros Hr. cases_of_body; congruence.
Qed.

Lemma step_cases (w : World) (r : Request) :
  step w r = w
  \/ (exists c bn g bs ms,
        r = StartGame c bn g bs ms
        /\ startGame c bn g bs ms w = (step w r, inr tt))
  \/ (exists c bn g mv rb,
        r = Play c bn g mv rb /\ play c bn g mv rb w = (step w r, inr tt)).
Proof.
  unfold step, call. destruct r as [c bn g bs ms|c bn g mv rb]; cbn [body].
  - destruct (startGame c bn g bs ms w) as [w' [e|[]]] eqn:Hr; cbn [fst].
    + left. reflexivity.
    + right. left. eauto 10.
  - destruct (play c bn g mv rb w) as [w' [e|[]]] eqn:Hr; cbn [fst].
    + left. reflexivity.
    + right. right. eauto 10.
Qed.


Lemma startGame_checks c bn g bs ms w w' :
  startGame c bn g bs ms w = (w', inr tt) ->
  c = principalOf g
  /\ latestBoard w g = 0
  /\ default 0 (gameHashOf (storage w)
       !! keccak256 (Abi.encodePacked (elems4 bs))) = 0
  /\ validateStartPosition (at4 bs 0) = true
  /\ validateTransformation (at4 bs 0) (at3 ms 0) (at4 bs 1)
       (calculateSeed g 1) = true
  /\ validateTransformation (at4 bs 1) (at3 ms 1) (at4 bs 2)
       (calculateSeed g 2) = true
  /\ validateTransformation (at4 bs 2) (at3 ms 2) (at4 bs 3)
       (calculateSeed g 3) = true.
Proof.
  rewrite startGame_unfold. intros Hr. cases_of_body; try discriminate.
  apply andb_prop in E3 as [E3 E5]. apply andb_prop in E3 as [E3 E4].
  repeat split; try assumption; apply Z.eqb_eq; assumption.
Qed.

Lemma play_checks c bn g mv rb w w' :
  play c bn g mv rb w = (w', inr tt) ->
  c = principalOf g
  /\ validateTransformation (latestBoard w g) mv rb
       (calculateSeed g (nextMove w g)) = true
  /\ nextMove w g + 1 < 2 ^ 120.
Proof.
  rewrite play_unfold. intros Hr. cases_of_body; try discriminate.
  repeat split; try assumption; [apply Z.eqb_eq|apply Z.ltb_lt]; assumption.
Qed.

(** ** Views of the committed worlds *)

Lemma nextMove_started c bn g bs ms w : nextMove (started c bn g bs ms w) g = 4.
Proof. unfold nextMove, started. cbn. rewrite lookup_insert_eq. reflexivity. Qed.

Lemma latestBoard_started c bn g bs ms w :
  latestBoard (started c bn g bs ms w) g = at4 bs 3.
Proof. unfold latestBoard, started. cbn. rewrite lookup_insert_eq. reflexivity. Qed.

Lemma nextMove_played c bn g mv rb w :
  nextMove (played c bn g mv rb w) g = nextMove w g + 1.
Proof.
  unfold played. unfold nextMove at 1. cbn. rewrite lookup_insert_eq. reflexivity.
Qed.

Lemma latestBoard_played c bn g mv rb w :
  latestBoard (played c bn g mv rb w) g = rb.
Proof. unfold latestBoard, played. cbn. rewrite lookup_insert_eq. reflexivity. Qed.

Lemma confirmed_insert (m : gmap (Z * Z) bool) (k k' : Z * Z) :
  default false (m !! k') = true ->
  default false (<[k := true]> m !! k') = true.
Proof.
  intros Hk. destruct (decide (k = k')) as [->|Hne].
  - rewrite lookup_insert_eq. reflexivity.
  - rewrite lookup_insert_ne by exact Hne. exact Hk.
Qed.

Lemma confirmed_started c bn g bs ms w g' n :
  isMoveConfirmed w g' n = true ->
  isMoveConfirmed (started c bn g bs ms w) g' n = true.
Proof.
  unfold isMoveConfirmed, started. cbn. intros Hc.
  do 3 apply confirmed_insert. exact Hc.
Qed.

Lemma confirmed_played c bn g mv rb w g' n :
  isMoveConfirmed w g' n = true ->
  isMoveConfirmed (played c bn g mv rb w) g' n = true.
Proof.
  unfold isMoveConfirmed, played. cbn. intros Hc.
  apply confirmed_insert. exact Hc.
Qed.

Lemma confirmed_step (w : World) (r : Request) (g n : Z) :
  isMoveConfirmed w g n = true -> isMoveConfirmed (step w r) g n = true.
Proof.
  intros Hc.
  destruct (step_cases w r) as [->|[(c & bn & g' & bs & ms & _ & Hr)
                                   |(c & bn & g' & mv & rb & _ & Hr)]].
  - exact Hc.
  - rewrite (startGame_succeeds _ _ _ _ _ _ _ Hr). apply confirmed_started, Hc.
  - rewrite (play_succeeds _ _ _ _ _ _ _ Hr). apply confirmed_played, Hc.
Qed.

(** ** The mark an opening leaves *)

Lemma openingUsed_step (w : World) (r : Request) (bs : uint128x4) :
  openingUsed w bs -> openingUsed (step w r) bs.
Proof.
  intros Hu.
  destruct (step_cases w r) as [->|[(c & bn & g' & bs' & ms & _ & Hr)
                                   |(c & bn & g' & mv & rb & _ & Hr)]].
  - exact Hu.
  - pose proof (startGame_checks _ _ _ _ _ _ _ Hr) as (_ & _ & Hfree & _).
    rewrite (startGame_succeeds _ _ _ _ _ _ _ Hr).
    unfold openingUsed, started in *. cbn.
    destruct (decide (keccak256 (Abi.encodePacked (elems4 bs'))
                      = keccak256 (Abi.encodePacked (elems4 bs)))) as [Heq|Hne].
    + rewrite Heq in Hfree. contradiction.
    + rewrite lookup_insert_ne by exact Hne. exact Hu.
  - rewrite (play_succeeds _ _ _ _ _ _ _ Hr). exact Hu.
Qed.

Lemma openingUsed_run (rs : list Request) : forall (w : World) bs,
  openingUsed w bs -> openingUsed (run w rs) bs.
Proof.
  induction rs as [|r rs IH]; intros w bs Hu; [exact Hu|].
  apply (IH (step w r)), openingUsed_step, Hu.
Qed.

Lemma confirmed_run (rs : list Request) : forall (w : World) (g n : Z),
  isMoveConfirmed w g n = true -> isMoveConfirmed (run w rs) g n = true.
Proof.
  induction rs as [|r rs IH]; intros w g n Hc; [exact Hc|].
  apply (IH (step w r)), confirmed_step, Hc.
Qed.


(** ** The properties of the ledger *)

(** C2 (seed consistency).  [calculateSeed gameId n] is the Keccak-256
    digest of the 32 bytes of the identifier followed by the 32 bytes of
    the move number, and it is the seed the ledger validates with: [play]
    goes through exactly when the caller is the principal, the board
    library accepts the transition of the stored board under
    [calculateSeed gameId (nextMove gameId)] and the counter does not
    overflow; [startGame] goes through exactly when its checks pass with
    opening move [i] validated under [calculateSeed gameId i], for [i] from
    1 to 3.  The board library is arbitrary, so no other seed is used. *)
Theorem seed_consistency (c bn g mv rb n : Z) (bs : uint128x4)
    (ms : uint8x3) (w : World) :
  calculateSeed g n = keccak256 (Abi.word32 g ++ Abi.word32 n)
  /\ (snd (play c bn g mv rb w) = inr tt <->
      c = principalOf g
      /\ validateTransformation (latestBoard w g) mv rb
           (calculateSeed g (nextMove w g)) = true
      /\ nextMove w g + 1 < 2 ^ 120)
  /\ (snd (startGame c bn g bs ms w) = inr tt <->
      c = principalOf g
      /\ latestBoard w g = 0
      /\ default 0 (gameHashOf (storage w)
           !! keccak256 (Abi.encodePacked (elems4 bs))) = 0
      /\ validateStartPosition (at4 bs 0) = true
      /\ forall i, 1 <= i <= 3 ->
           validateTransformation (at4 bs (i - 1)) (at3 ms (i - 1))
             (at4 bs i) (calculateSeed g i) = true).
Proof.
  split; [|split].
  - unfold calculateSeed, Abi.encodePacked. cbn [flat_map].
    rewrite app_nil_r. reflexivity.
  - split.
    + intros Hr. destruct (play c bn g mv rb w) as [w' [e|[]]] eqn:Hp;
        [discriminate|]. exact (play_checks _ _ _ _ _ _ _ Hp).
    + intros (Hc & Hv & Hn). rewrite play_unfold.
      apply Z.eqb_eq in Hc. apply Z.ltb_lt in Hn.
      rewrite Hc, Hv, Hn. reflexivity.
  - split.
    + intros Hr. destruct (startGame c bn g bs ms w) as [w' [e|[]]] eqn:Hp;
        [discriminate|].
      destruct (startGame_checks _ _ _ _ _ _ _ Hp)
        as (Hc & Hb & Hh & Hs & H1 & H2 & H3).
      repeat split; try assumption.
      intros i Hi.
      assert (i = 1 \/ i = 2 \/ i = 3) as [->|[->| ->]] by lia; assumption.
    + intros (Hc & Hb & Hh & Hs & Hall). rewrite startGame_unfold.
      apply Z.eqb_eq in Hc, Hb, Hh. rewrite Hc, Hb, Hh, Hs. cbn [negb].
      pose proof (Hall 1 ltac:(lia)) as H1.
      pose proof (Hall 2 ltac:(lia)) as H2.
      pose proof (Hall 3 ltac:(lia)) as H3.
      change (1 - 1) with 0 in H1. change (2 - 1) with 1 in H2.
      change (3 - 1) with 2 in H3.
      rewrite H1, H2, H3. reflexivity.
Qed.

(** C3, amended (replay rejection).  Once a game with a non-zero
    identifier has been started with an opening sequence, every later
    [startGame] with the same four boards fails and leaves the world as it
    was, whatever calls came in between and whatever its identifier, caller
    and moves.  The failure is [GamePlayed] when the call gets past the two
    earlier checks; a caller who is not the principal of the identifier gets
    [GamePlayerInvalid], and an identifier with a stored board gets
    [GameIdUsed]. *)
Theorem replay_rejected (w0 w1 : World) (c1 bn1 g1 : Z) (bs : uint128x4)
    (ms1 : uint8x3) (rs : list Request) (c2 bn2 g2 : Z) (ms2 : uint8x3) :
  g1 <> 0 ->
  startGame c1 bn1 g1 bs ms1 w0 = (w1, inr tt) ->
  startGame c2 bn2 g2 bs ms2 (run w1 rs)
  = (run w1 rs,
     inl (if negb (c2 =? principalOf g2) then GamePlayerInvalid
          else if negb (latestBoard (run w1 rs) g2 =? 0) then GameIdUsed
          else GamePlayed)).
Proof.
  intros Hg1 Hstart.
  assert (Hused : openingUsed (run w1 rs) bs).
  { apply openingUsed_run. rewrite (startGame_succeeds _ _ _ _ _ _ _ Hstart).
    unfold openingUsed, started. cbn. rewrite lookup_insert_eq. exact Hg1. }
  rewrite startGame_unfold.
  destruct (c2 =? principalOf g2); cbn [negb]; [|reflexivity].
  destruct (latestBoard (run w1 rs) g2 =? 0); cbn [negb]; [|reflexivity].
  apply Z.eqb_neq in Hused. unfold openingUsed in Hused. rewrite Hused.
  reflexivity.
Qed.

(** C4 (identity enforcement).  The principal of an identifier is its
    high 160 bits, whatever the low 96 bits are; the modifier passes
    exactly when the caller is that principal; and a [startGame] or [play]
    from anyone else fails with [GamePlayerInvalid] (the specification's
    WrongPlayer) with the world untouched, whether or not the submitted
    boards would validate. *)
Theorem identity_enforced (p d c g bn mv rb : Z) (bs : uint128x4)
    (ms : uint8x3) (w : World) :
  0 <= p < 2 ^ 160 -> 0 <= d < 2 ^ 96 ->
  principalOf (p * 2 ^ 96 + d) = p
  /\ (correctGameId c g w = (w, inr tt) <-> c = principalOf g)
  /\ (c <> principalOf g ->
      startGame c bn g bs ms w = (w, inl GamePlayerInvalid)
      /\ play c bn g mv rb w = (w, inl GamePlayerInvalid)).
Proof.
  intros Hp Hd. split; [|split].
  - unfold principalOf. rewrite Z.shiftr_div_pow2 by lia.
    rewrite Z.div_add_l by lia. rewrite (Z.div_small d) by lia.
    rewrite Z.add_0_r. apply Z.mod_small. exact Hp.
  - unfold correctGameId, require. destruct (Z.eqb_spec c (principalOf g)).
    + split; auto.
    + split; [discriminate|contradiction].
  - intros Hne. apply Z.eqb_neq in Hne.
    rewrite startGame_unfold, play_unfold, Hne. split; reflexivity.
Qed.

(** C5 (atomicity on failure).  Whichever check of [startGame] or [play]
    fails, the body has written nothing by then: the world it stops in is
    the world it started from, game records, confirmation flags, opening
    hashes and event log alike, and so is the world the call leaves. *)
Theorem atomic_on_failure (r : Request) (w w' : World) (e : Revert) :
  body r w = (w', inl e) ->
  w' = w /\ call (body r) w = (w, inl e) /\ step w r = w.
Proof.
  intros Hr. unfold step, call. rewrite Hr. cbn [fst].
  destruct r as [c bn g bs ms|c bn g mv rb]; cbn [body] in Hr.
  - rewrite (startGame_fails_clean _ _ _ _ _ _ _ _ Hr). auto.
  - rewrite (play_fails_clean _ _ _ _ _ _ _ _ Hr). auto.
Qed.

(** C6 (monotonic move numbers).  After a successful [startGame] the next
    move number of the game is 4 and its board is the fourth opening
    board; after a successful [play] the next move number is one more than
    before and the board is the submitted result board. *)
Theorem move_numbers_monotonic (c bn g mv rb : Z) (bs : uint128x4)
    (ms : uint8x3) (w w' : World) :
  (startGame c bn g bs ms w = (w', inr tt) ->
   nextMove w' g = 4 /\ latestBoard w' g = at4 bs 3)
  /\ (play c bn g mv rb w = (w', inr tt) ->
      nextMove w' g = nextMove w g + 1 /\ latestBoard w' g = rb).
Proof.
  split; intros Hr.
  - rewrite (startGame_succeeds _ _ _ _ _ _ _ Hr).
    split; [apply nextMove_started|apply latestBoard_started].
  - rewrite (play_succeeds _ _ _ _ _ _ _ Hr).
    split; [apply nextMove_played|apply latestBoard_played].
Qed.

(** C7 (confirmation flags).  A successful [startGame] leaves moves 1, 2
    and 3 of the game confirmed; a successful [play] leaves confirmed the
    move number it validated, the game's next move number before the call;
    and a flag that is set stays set through every call, failed or not, and
    through every sequence of calls. *)
Theorem confirmation_flags (c bn g mv rb : Z) (bs : uint128x4)
    (ms : uint8x3) (w w' : World) :
  (startGame c bn g bs ms w = (w', inr tt) ->
   isMoveConfirmed w' g 1 = true /\ isMoveConfirmed w' g 2 = true
   /\ isMoveConfirmed w' g 3 = true)
  /\ (play c bn g mv rb w = (w', inr tt) ->
      isMoveConfirmed w' g (nextMove w g) = true)
  /\ (forall (g' n : Z) (rs : list Request),
        isMoveConfirmed w g' n = true ->
        isMoveConfirmed (run w rs) g' n = true).
Proof.
  split; [|split].
  - intros Hr. rewrite (startGame_succeeds _ _ _ _ _ _ _ Hr).
    unfold isMoveConfirmed, started. cbn.
    repeat split.
    + do 2 apply confirmed_insert. rewrite lookup_insert_eq. reflexivity.
    + apply confirmed_insert. rewrite lookup_insert_eq. reflexivity.
    + rewrite lookup_insert_eq. reflexivity.
  - intros Hr. rewrite (play_succeeds _ _ _ _ _ _ _ Hr).
    unfold isMoveConfirmed, played. cbn. rewrite lookup_insert_eq. reflexivity.
  - intros g' n rs. apply confirmed_run.
Qed.

(** [startGame] fails with [GameIdUsed] exactly when the caller is the
    principal of the identifier and the board stored under it is not
    zero. *)
Lemma GameIdUsed_iff (c bn g : Z) (bs : uint128x4) (ms : uint8x3)
    (w : World) :
  snd (startGame c bn g bs ms w) = inl GameIdUsed
  <-> c = principalOf g /\ latestBoard w g <> 0.
Proof.
  rewrite startGame_unfold.
  destruct (Z.eqb_spec c (principalOf g)) as [Hc|Hc]; cbn [negb].
  - destruct (Z.eqb_spec (latestBoard w g) 0) as [Hz|Hnz]; cbn [negb].
    + split; [|tauto]. intros Hr. cases_of_body; discriminate.
    + split; auto.
  - split; [discriminate|tauto].
Qed.

(** C9, amended (events of [startGame]).  A successful [startGame] appends
    exactly two events to the log: [NewGame] with the caller, the
    identifier and the fourth opening board, then one [MoveConfirmed] with
    the caller, the identifier, move number 3 and the block number.  Moves
    1 and 2 are marked confirmed without an event. *)
Theorem startGame_events (c bn g : Z) (bs : uint128x4) (ms : uint8x3)
    (w w' : World) :
  startGame c bn g bs ms w = (w', inr tt) ->
  log w' = log w ++ [NewGame c g (at4 bs 3); MoveConfirmed c g 3 bn].
Proof.
  intros Hr. rewrite (startGame_succeeds _ _ _ _ _ _ _ Hr). reflexivity.
Qed.

(** C10 (no existence check in [play]).  For an identifier under which
    nothing was ever stored, [play] by its principal reads the default
    record, board 0 and next move 0, and its outcome is decided by the
    board library alone: it commits move number 0 when the transition from
    the zero board validates under [calculateSeed gameId 0], and fails with
    [GameBoardInvalid] otherwise.  No error of the contract stands for a
    missing game. *)
Theorem play_without_game (c bn g mv rb : Z) (w : World) :
  state (storage w) !! g = None ->
  c = principalOf g ->
  latestBoard w g = 0 /\ nextMove w g = 0
  /\ play c bn g mv rb w
     = if validateTransformation 0 mv rb (calculateSeed g 0)
       then (played c bn g mv rb w, inr tt)
       else (w, inl GameBoardInvalid).
Proof.
  intros Hnone Hc. apply Z.eqb_eq in Hc.
  assert (Hb : latestBoard w g = 0) by (unfold latestBoard; rewrite Hnone; reflexivity).
  assert (Hn : nextMove w g = 0) by (unfold nextMove; rewrite Hnone; reflexivity).
  repeat split; try assumption.
  rewrite play_unfold, Hc, Hb, Hn. cbn [negb].
  destruct (validateTransformation 0 mv rb (calculateSeed g 0)); reflexivity.
Qed.

End Facts.
End LedgerFacts.

(* ====================================================================== *)
(** * The reference game: instances of the theorems                       *)
(* ====================================================================== *)

Module Examples.
Import Ledger Delta Reference.
#[local] Existing Instance Reference.hash.
#[local] Existing Instance Reference.boardLib.

Lemma player_is_principal : player = principalOf gameId.
Proof. vm_compute. reflexivity. Qed.

Lemma stranger_is_not_principal : stranger <> principalOf gameId.
Proof. vm_compute. discriminate. Qed.

Lemma opening_accepted :
  startGame player 100 gameId opening moves genesis = (opened, inr tt).
Proof. vm_compute. reflexivity. Qed.

Lemma fourth_move_accepted :
  play player 101 gameId 1 play4 opened = (moved, inr tt).
Proof. vm_compute. reflexivity. Qed.

Lemma opening_tiles :
  map Board.unpack [start; after1; after2; after3; play4]
  = [[1;0;0;0; 0;0;0;0; 0;0;0;0; 0;0;0;1];
     [1;0;0;0; 0;0;2;0; 0;0;0;0; 1;0;0;0];
     [2;0;2;1; 0;0;0;0; 0;0;0;0; 0;0;0;0];
     [1;0;3;1; 0;0;0;0; 0;0;0;0; 0;0;0;0];
     [0;0;0;0; 0;1;0;0; 0;0;0;0; 1;0;3;1]].
Proof. vm_compute. reflexivity. Qed.


(** The canonical board of that move is [after1]. *)
Lemma first_move_is_canonical :
  Board.canonicalTiles spawnsFour start Board.Left (calculateSeed gameId 1)
  = [1;0;0;0; 0;0;2;0; 0;0;0;0; 1;0;0;0]
  /\ Board.unpack after1 = [1;0;0;0; 0;0;2;0; 0;0;0;0; 1;0;0;0]
  /\ Board.validateTransition spawnsFour largestExponent start Board.Left
       after1 (calculateSeed gameId 1) = Board.Ok true.
Proof. repeat split; vm_compute; reflexivity. Qed.

(** The two tiles of the start board, in cells 0 and 15, share neither a
    row nor a column of the row-major grid: no move makes them meet, and
    a move only slides them. *)
Lemma corner_tiles_do_not_merge :
  map (fun m => Board.shiftTiles m (Board.unpack start))
    [Board.Up; Board.Down; Board.Left; Board.Right]
  = [[1;0;0;1; 0;0;0;0; 0;0;0;0; 0;0;0;0];
     [0;0;0;0; 0;0;0;0; 0;0;0;0; 1;0;0;1];
     [1;0;0;0; 0;0;0;0; 0;0;0;0; 1;0;0;0];
     [0;0;0;1; 0;0;0;0; 0;0;0;0; 0;0;0;1]].
Proof. vm_compute. reflexivity. Qed.

(** One line under a move: equal neighbours merge once, from the leading
    edge, and a merged tile is not merged again in the same move. *)
Lemma merges_do_not_chain :
  Board.slideLine [1;1;1;1] = [2;2;0;0]
  /\ Board.slideLine [1;1;2;0] = [2;2;0;0]
  /\ Board.slideLine [2;0;2;3] = [3;3;0;0]
  /\ Board.slideLine [0;1;0;1] = [2;0;0;0]
  /\ Board.slideLine [1;2;1;2] = [1;2;1;2].
Proof. repeat split. Qed.

(** A board with an exponent above the range is rejected before
    simulation, whatever board is claimed. *)
Lemma out_of_range_board_is_rejected (R seed : Z) :
  Board.validBoard largestExponent 0xFFFF = false
  /\ Board.legalMove largestExponent 0xFFFF Board.Left = false
  /\ Board.validateTransition spawnsFour largestExponent 0xFFFF Board.Left
       R seed = Board.Ok false.
Proof. repeat split. Qed.

(** Why the exponent range must leave room for one merge: were every
    field value in range, the board of two tiles of exponent 255 would be
    valid and LEFT would merge them, but the merged exponent 256 has no
    field, so no board holds the canonical tiles. *)
Lemma no_board_without_headroom (R seed : Z) :
  Board.legalMove Board.maxExponent 0xFFFF Board.Left = true
  /\ Board.shiftTiles Board.Left (Board.unpack 0xFFFF)
     = [256;0;0;0; 0;0;0;0; 0;0;0;0; 0;0;0;0]
  /\ Board.unpack R
     <> Board.canonicalTiles spawnsFour 0xFFFF Board.Left seed.
Proof.
  split; [vm_compute; reflexivity|]. split; [vm_compute; reflexivity|].
  intros Heq. apply (f_equal (fun tiles => nth 0 tiles 0)) in Heq.
  rewrite BoardFacts.unpack_nth in Heq by (unfold Board.cells; lia).
  unfold Board.canonicalTiles in Heq.
  change (Board.shiftTiles Board.Left (Board.unpack 0xFFFF))
    with [256;0;0;0; 0;0;0;0; 0;0;0;0; 0;0;0;0] in Heq.
  set (shifted := [256;0;0;0; 0;0;0;0; 0;0;0;0; 0;0;0;0]) in Heq.
  set (es := Board.emptyPositions shifted) in Heq.
  assert (Hin : In (nth (Z.to_nat (seed mod Z.of_nat (length es))) es 0%nat)
                  es).
  { apply nth_In. change (length es) with 15%nat.
    pose proof (Z.mod_pos_bound seed (Z.of_nat 15) ltac:(lia)). lia. }
  apply BoardFacts.emptyPositions_bound in Hin as [_ Hempty].
  set (i := nth (Z.to_nat (seed mod Z.of_nat (length es))) es 0%nat) in *.
  rewrite !nth_lookup in Heq.
  rewrite list_lookup_insert_ne in Heq.
  - pose proof (BoardFacts.tileAt_range R 0) as Hrange.
    change Board.maxExponent with 255 in Hrange. cbn in Heq. lia.
  - intros Hzero. rewrite Hzero in Hempty. discriminate Hempty.
Qed.

(** Witness of C3: the opening replayed under another identifier by
    another caller, after the first game has moved on. *)
Lemma replay_rejected_witness :
  startGame stranger 102 otherId opening moves
    (run opened [Play player 101 gameId 1 play4])
  = (run opened [Play player 101 gameId 1 play4], inl GamePlayed).
Proof.
  assert (Hid : gameId <> 0) by (vm_compute; discriminate).
  rewrite (LedgerFacts.replay_rejected genesis opened player 100 gameId
             opening moves [Play player 101 gameId 1 play4]
             stranger 102 otherId moves Hid opening_accepted).
  vm_compute. reflexivity.
Defined.

(** Counterexample to C3 as stated: the same call sent twice fails with
    [GameIdUsed], and the opening replayed by someone who is not the
    principal of the identifier fails with [GamePlayerInvalid]; neither is
    [GamePlayed]. *)
Lemma replay_not_always_GamePlayed :
  startGame player 100 gameId opening moves genesis = (opened, inr tt)
  /\ startGame player 101 gameId opening moves opened
     = (opened, inl GameIdUsed)
  /\ startGame stranger 101 gameId opening moves opened
     = (opened, inl GamePlayerInvalid).
Proof. repeat split; vm_compute; reflexivity. Qed.

(** Witness of C4. *)
Lemma identity_enforced_witness :
  principalOf (player * 2 ^ 96 + 1) = player
  /\ (correctGameId stranger gameId opened = (opened, inr tt)
      <-> stranger = principalOf gameId)
  /\ startGame stranger 101 gameId opening moves opened
     = (opened, inl GamePlayerInvalid)
  /\ play stranger 101 gameId 1 play4 opened
     = (opened, inl GamePlayerInvalid).
Proof.
  destruct (LedgerFacts.identity_enforced player 1 stranger gameId 101 1
              play4 opening moves opened)
    as (Hp & Hc & Hfail).
  - vm_compute. split; [discriminate|reflexivity].
  - vm_compute. split; [discriminate|reflexivity].
  - split; [exact Hp|]. split; [exact Hc|].
    apply Hfail. exact stranger_is_not_principal.
Defined.

(** Witness of C5: a second [startGame] under a used identifier. *)
Lemma atomic_on_failure_witness :
  opened = opened
  /\ call (body (StartGame player 101 gameId opening moves)) opened
     = (opened, inl GameIdUsed)
  /\ step opened (StartGame player 101 gameId opening moves) = opened.
Proof.
  apply (LedgerFacts.atomic_on_failure
           (StartGame player 101 gameId opening moves) opened opened GameIdUsed).
  vm_compute. reflexivity.
Defined.

(** Witness of C6. *)
Lemma move_numbers_monotonic_witness :
  (nextMove opened gameId = 4 /\ latestBoard opened gameId = at4 opening 3)
  /\ (nextMove moved gameId = nextMove opened gameId + 1
      /\ latestBoard moved gameId = play4).
Proof.
  split.
  - apply (LedgerFacts.move_numbers_monotonic player 100 gameId 1 play4
             opening moves genesis opened).
    exact opening_accepted.
  - apply (LedgerFacts.move_numbers_monotonic player 101 gameId 1 play4
             opening moves opened moved).
    exact fourth_move_accepted.
Defined.

(** Witness of C7. *)
Lemma confirmation_flags_witness :
  (isMoveConfirmed opened gameId 1 = true
   /\ isMoveConfirmed opened gameId 2 = true
   /\ isMoveConfirmed opened gameId 3 = true)
  /\ isMoveConfirmed moved gameId (nextMove opened gameId) = true
  /\ isMoveConfirmed
       (run opened [Play player 101 gameId 1 play4;
                    StartGame stranger 102 otherId opening moves])
       gameId 2 = true.
Proof.
  split; [|split].
  - apply (LedgerFacts.confirmation_flags player 100 gameId 1 play4
             opening moves genesis opened).
    exact opening_accepted.
  - apply (LedgerFacts.confirmation_flags player 101 gameId 1 play4
             opening moves opened moved).
    exact fourth_move_accepted.
  - apply (LedgerFacts.confirmation_flags player 101 gameId 1 play4
             opening moves opened moved).
    vm_compute. reflexivity.
Defined.


(** Witness of C9. *)
Lemma startGame_events_witness :
  log opened
  = log genesis ++ [NewGame player gameId (at4 opening 3);
                    MoveConfirmed player gameId 3 100].
Proof.
  apply (LedgerFacts.startGame_events player 100 gameId opening moves
           genesis opened).
  exact opening_accepted.
Defined.

(** Counterexample to C9 as stated: after a successful [startGame] the log
    holds the start event and the confirmation of move 3 only; moves 1 and
    2 are confirmed in storage and have no event. *)
Lemma no_event_for_moves_1_and_2 :
  startGame player 100 gameId opening moves genesis = (opened, inr tt)
  /\ log opened = [NewGame player gameId after3;
                   MoveConfirmed player gameId 3 100]
  /\ isMoveConfirmed opened gameId 1 = true
  /\ isMoveConfirmed opened gameId 2 = true
  /\ (forall bn, ~ In (MoveConfirmed player gameId 1 bn) (log opened))
  /\ (forall bn, ~ In (MoveConfirmed player gameId 2 bn) (log opened)).
Proof.
  split; [exact opening_accepted|].
  split; [vm_compute; reflexivity|].
  split; [vm_compute; reflexivity|].
  split; [vm_compute; reflexivity|].
  split; intros bn [Hin|[Hin|[]]]; discriminate Hin.
Qed.

(** Witness of C10: the first call ever made under [gameId] is a [play];
    the reference library refuses every transition of the zero board. *)
Lemma play_without_game_witness :
  latestBoard genesis gameId = 0 /\ nextMove genesis gameId = 0
  /\ play player 100 gameId 2 start genesis
     = (genesis, inl GameBoardInvalid).
Proof.
  destruct (LedgerFacts.play_without_game player 100 gameId 2 start genesis
              eq_refl player_is_principal) as (Hb & Hn & Hp).
  split; [exact Hb|]. split; [exact Hn|].
  rewrite Hp. vm_compute. reflexivity.
Defined.

End Examples.

(* ===================================================================== *)
(** * Call sequences: isolation, permanence, reachable worlds             *)
(* ===================================================================== *)

Module ChainFacts.
Import Ledger Delta Chain LedgerFacts.
Section Facts.
Context {H : Hash} {B : BoardLib}.

(** A property kept by every call is kept by every sequence of calls. *)
Lemma run_invariant (P : World -> Prop) :
  (forall w r, P w -> P (step w r)) ->
  forall rs w, P w -> P (run w rs).
Proof.
  intros Hstep rs. induction rs as [|r rs IH]; intros w Hw; [exact Hw|].
  apply (IH (step w r)), Hstep, Hw.
Qed.

Lemma run_app (w : World) (rs rs' : list Request) :
  run w (rs ++ rs') = run (run w rs) rs'.
Proof. unfold run. apply fold_left_app. Qed.

Lemma reachable_ind (P : World -> Prop) :
  P genesis ->
  (forall w r, P w -> P (step w r)) ->
  forall w, reachable w -> P w.
Proof.
  intros H0 Hstep w [rs ->]. apply run_invariant; assumption.
Qed.

(** What a committed call leaves of the record and flags of a game. *)
Lemma stateOf_started c bn g bs ms w g' :
  stateOf (started c bn g bs ms w) g'
  = if decide (g = g') then GameState.mk (at3 ms 2) 4 (at4 bs 3)
    else stateOf w g'.
Proof.
  unfold stateOf, started. cbn. destruct (decide (g = g')) as [->|Hne].
  - rewrite lookup_insert_eq. reflexivity.
  - rewrite lookup_insert_ne by exact Hne. reflexivity.
Qed.

Lemma stateOf_played c bn g mv rb w g' :
  stateOf (played c bn g mv rb w) g'
  = if decide (g = g') then GameState.mk mv (nextMove w g + 1) rb
    else stateOf w g'.
Proof.
  unfold stateOf, played. cbn. destruct (decide (g = g')) as [->|Hne].
  - rewrite lookup_insert_eq. reflexivity.
  - rewrite lookup_insert_ne by exact Hne. reflexivity.
Qed.

Lemma confirmed_started_iff c bn g bs ms w g' n :
  isMoveConfirmed (started c bn g bs ms w) g' n
  = (bool_decide (g' = g /\ 1 <= n <= 3) || isMoveConfirmed w g' n).
Proof.
  unfold isMoveConfirmed, started. cbn.
  destruct (bool_decide_reflect (g' = g /\ 1 <= n <= 3)) as [[-> Hn]|Hno];
    cbn [orb].
  - assert (n = 1 \/ n = 2 \/ n = 3) as [->|[->| ->]] by lia.
    + rewrite !lookup_insert_ne by (intros [=]). rewrite lookup_insert_eq.
      reflexivity.
    + rewrite lookup_insert_ne by (intros [=]). rewrite lookup_insert_eq.
      reflexivity.
    + rewrite lookup_insert_eq. reflexivity.
  - rewrite !lookup_insert_ne
      by (intros [= Hg Hn]; apply Hno; split; [congruence|lia]).
    reflexivity.
Qed.

Lemma confirmed_played_iff c bn g mv rb w g' n :
  isMoveConfirmed (played c bn g mv rb w) g' n
  = (bool_decide (g' = g /\ n = nextMove w g) || isMoveConfirmed w g' n).
Proof.
  unfold isMoveConfirmed, played. cbn.
  destruct (bool_decide_reflect (g' = g /\ n = nextMove w g)) as [[-> ->]|Hno];
    cbn [orb].
  - rewrite lookup_insert_eq. reflexivity.
  - rewrite lookup_insert_ne
      by (intros [= Hg Hn]; apply Hno; split; congruence).
    reflexivity.
Qed.

Lemma views_of_stateOf (w : World) (g : Z) :
  nextMove w g = GameState.nextMove (stateOf w g)
  /\ latestBoard w g = GameState.board (stateOf w g).
Proof. split; reflexivity. Qed.


Lemma step_committed (P : World -> Prop) (w : World) (r : Request) :
  P w ->
  (forall c bn g bs ms,
     r = StartGame c bn g bs ms ->
     startGame c bn g bs ms w = (started c bn g bs ms w, inr tt) ->
     P (started c bn g bs ms w)) ->
  (forall c bn g mv rb,
     r = Play c bn g mv rb ->
     play c bn g mv rb w = (played c bn g mv rb w, inr tt) ->
     P (played c bn g mv rb w)) ->
  P (step w r).
Proof.
  intros Hw Hs Hp.
  destruct (step_cases w r) as [->|[(c & bn & g & bs & ms & Hr & Hrun)
                                   |(c & bn & g & mv & rb & Hr & Hrun)]].
  - exact Hw.
  - pose proof (startGame_succeeds _ _ _ _ _ _ _ Hrun) as Hw'.
    rewrite Hw' in *. apply (Hs c bn g bs ms Hr Hrun).
  - pose proof (play_succeeds _ _ _ _ _ _ _ Hrun) as Hw'.
    rewrite Hw' in *. apply (Hp c bn g mv rb Hr Hrun).
Qed.

(** ** Isolation of games *)

Lemma step_leaves_game (w : World) (r : Request) (g : Z) :
  target r <> g \/ sender r <> principalOf g ->
  stateOf (step w r) g = stateOf w g
  /\ forall n, isMoveConfirmed (step w r) g n = isMoveConfirmed w g n.
Proof.
  intros Hother.
  apply (step_committed
           (fun w' => stateOf w' g = stateOf w g
                      /\ forall n, isMoveConfirmed w' g n = isMoveConfirmed w g n)).
  - auto.
  - intros c bn g' bs ms -> Hrun. cbn in Hother.
    pose proof (startGame_checks _ _ _ _ _ _ _ Hrun) as (Hc & _).
    assert (Hne : g' <> g) by (intros ->; tauto).
    rewrite stateOf_started. destruct (decide (g' = g)) as [Heq|_]; [contradiction|].
    split; [reflexivity|]. intros n. rewrite confirmed_started_iff.
    rewrite bool_decide_eq_false_2 by (intros [Hg _]; congruence). reflexivity.
  - intros c bn g' mv rb -> Hrun. cbn in Hother.
    pose proof (play_checks _ _ _ _ _ _ _ Hrun) as (Hc & _).
    assert (Hne : g' <> g) by (intros ->; tauto).
    rewrite stateOf_played. destruct (decide (g' = g)) as [Heq|_]; [contradiction|].
    split; [reflexivity|]. intros n. rewrite confirmed_played_iff.
    rewrite bool_decide_eq_false_2 by (intros [Hg _]; congruence). reflexivity.
Qed.

(** X1.  Calls that name another game, or that come from someone who is
    not the principal of game [g], leave the record of [g] (last move, next
    move number, board) and all its confirmation flags as they were,
    however many such calls are made and whether they succeed or not. *)
Theorem only_the_principal_moves_a_game (rs : list Request) (w : World)
    (g : Z) :
  Forall (fun r => target r <> g \/ sender r <> principalOf g) rs ->
  stateOf (run w rs) g = stateOf w g
  /\ forall n, isMoveConfirmed (run w rs) g n = isMoveConfirmed w g n.
Proof.
  revert w. induction rs as [|r rs IH]; intros w Hall; [auto|].
  apply Forall_cons in Hall as [Hr Hrs].
  destruct (step_leaves_game w r g Hr) as [Hs Hc].
  destruct (IH (step w r) Hrs) as [Hs' Hc'].
  change (run w (r :: rs)) with (run (step w r) rs).
  split; [congruence|]. intros n. rewrite Hc'. apply Hc.
Qed.

(** ** The owner of an opening *)

Lemma gameOfHash_step (w : World) (r : Request) (h : Z) :
  gameOfHash w h <> 0 -> gameOfHash (step w r) h = gameOfHash w h.
Proof.
  intros Hset.
  apply (step_committed (fun w' => gameOfHash w' h = gameOfHash w h)).
  - reflexivity.
  - intros c bn g bs ms _ Hrun.
    pose proof (startGame_checks _ _ _ _ _ _ _ Hrun) as (_ & _ & Hfree & _).
    unfold gameOfHash, started in *. cbn.
    rewrite lookup_insert_ne; [reflexivity|]. intros Heq.
    rewrite Heq in Hfree. contradiction.
  - intros c bn g mv rb _ _. reflexivity.
Qed.

(** X2.  [gameHashOf] binds an opening to the first game that used it,
    for good: after a successful [startGame] under a non-zero identifier
    the hash of the four boards maps to that identifier, and no later call
    changes the entry. *)
Theorem opening_owner_is_permanent (w0 w1 : World) (c bn g : Z)
    (bs : uint128x4) (ms : uint8x3) (rs : list Request) :
  g <> 0 ->
  startGame c bn g bs ms w0 = (w1, inr tt) ->
  gameOfHash (run w1 rs) (keccak256 (Abi.encodePacked (elems4 bs))) = g.
Proof.
  intros Hg Hstart.
  rewrite (startGame_succeeds _ _ _ _ _ _ _ Hstart).
  set (h := keccak256 (Abi.encodePacked (elems4 bs))).
  set (w := started c bn g bs ms w0).
  assert (H1 : gameOfHash w h = g).
  { unfold gameOfHash, w, started. cbn. rewrite lookup_insert_eq. reflexivity. }
  apply (run_invariant (fun w' => gameOfHash w' h = g)); [|exact H1].
  intros w' r Hw'. rewrite gameOfHash_step; congruence.
Qed.

(** ** The event log *)

(** X3.  The event log only grows: the log before a sequence of calls is
    a prefix of the log after it, and every call adds either nothing (it
    reverted) or exactly two events. *)
Theorem log_only_grows (w : World) (rs : list Request) :
  exists added,
    log (run w rs) = log w ++ added
    /\ (length added <= 2 * length rs)%nat
    /\ Nat.Even (length added).
Proof.
  revert w. induction rs as [|r rs IH]; intros w.
  - exists []. rewrite app_nil_r. repeat split; [simpl; lia|exists 0%nat; reflexivity].
  - destruct (IH (step w r)) as (added & Hlog & Hlen & [k Hk]).
    change (run w (r :: rs)) with (run (step w r) rs).
    assert (Hstep : exists ev, log (step w r) = log w ++ ev
                               /\ (length ev = 0 \/ length ev = 2)%nat).
    { apply (step_committed
               (fun w' => exists ev, log w' = log w ++ ev
                                     /\ (length ev = 0 \/ length ev = 2)%nat)).
      - exists []. rewrite app_nil_r. auto.
      - intros c bn g bs ms _ _. eexists. split; [reflexivity|]. auto.
      - intros c bn g mv rb _ _. eexists. split; [reflexivity|]. auto. }
    destruct Hstep as (ev & Hev & Hevlen).
    exists (ev ++ added). rewrite Hlog, Hev, <- app_assoc.
    split; [reflexivity|]. rewrite length_app. cbn [length]. split; [lia|].
    destruct Hevlen as [-> | ->]; [exists k|exists (S k)]; lia.
Qed.

(** X4.  Every event in the log of a reachable world names as player the
    principal encoded in the identifier it carries: nobody can have an
    event logged for a game of someone else. *)
Theorem events_name_the_principal (w : World) (ev : Event) :
  reachable w -> In ev (log w) -> eventPlayer ev = principalOf (eventId ev).
Proof.
  intros Hreach. revert ev.
  apply (reachable_ind
           (fun w => forall ev, In ev (log w)
                                -> eventPlayer ev = principalOf (eventId ev)));
    [| |exact Hreach].
  - intros ev [].
  - intros w' r IH.
    apply (step_committed
             (fun w'' => forall ev, In ev (log w'')
                                    -> eventPlayer ev = principalOf (eventId ev)));
      [exact IH| |].
    + intros c bn g bs ms _ Hrun ev Hin.
      pose proof (startGame_checks _ _ _ _ _ _ _ Hrun) as (Hc & _).
      unfold started in Hin. cbn in Hin.
      apply in_app_or in Hin as [Hin|[<-|[<-|[]]]]; [exact (IH ev Hin)| |];
        exact Hc.
    + intros c bn g mv rb _ Hrun ev Hin.
      pose proof (play_checks _ _ _ _ _ _ _ Hrun) as (Hc & _).
      unfold played in Hin. cbn in Hin.
      apply in_app_or in Hin as [Hin|[<-|[<-|[]]]]; [exact (IH ev Hin)| |];
        exact Hc.
Qed.

(** X5.  A successful [play] appends exactly two events: [NewMove] with
    the caller, the identifier, the move and the result board, then
    [MoveConfirmed] with the move number it validated (the game's next
    move number before the call) and the block number. *)
Theorem play_events (c bn g mv rb : Z) (w w' : World) :
  play c bn g mv rb w = (w', inr tt) ->
  log w' = log w ++ [NewMove c g mv rb; MoveConfirmed c g (nextMove w g) bn].
Proof.
  intros Hr. rewrite (play_succeeds _ _ _ _ _ _ _ Hr). reflexivity.
Qed.


(** ** Move numbers and flags in reachable worlds *)

Lemma nextMove_started_at c bn g bs ms w g' :
  nextMove (started c bn g bs ms w) g'
  = if decide (g = g') then 4 else nextMove w g'.
Proof.
  change (nextMove (started c bn g bs ms w) g')
    with (GameState.nextMove (stateOf (started c bn g bs ms w) g')).
  rewrite stateOf_started. destruct (decide (g = g')); reflexivity.
Qed.

Lemma nextMove_played_at c bn g mv rb w g' :
  nextMove (played c bn g mv rb w) g'
  = if decide (g = g') then nextMove w g + 1 else nextMove w g'.
Proof.
  change (nextMove (played c bn g mv rb w) g')
    with (GameState.nextMove (stateOf (played c bn g mv rb w) g')).
  rewrite stateOf_played. destruct (decide (g = g')); reflexivity.
Qed.

Lemma latestBoard_started_at c bn g bs ms w g' :
  latestBoard (started c bn g bs ms w) g'
  = if decide (g = g') then at4 bs 3 else latestBoard w g'.
Proof.
  change (latestBoard (started c bn g bs ms w) g')
    with (GameState.board (stateOf (started c bn g bs ms w) g')).
  rewrite stateOf_started. destruct (decide (g = g')); reflexivity.
Qed.

Lemma latestBoard_played_at c bn g mv rb w g' :
  latestBoard (played c bn g mv rb w) g'
  = if decide (g = g') then rb else latestBoard w g'.
Proof.
  change (latestBoard (played c bn g mv rb w) g')
    with (GameState.board (stateOf (played c bn g mv rb w) g')).
  rewrite stateOf_played. destruct (decide (g = g')); reflexivity.
Qed.

Lemma genesis_is_empty (g n : Z) :
  nextMove genesis g = 0 /\ latestBoard genesis g = 0
  /\ isMoveConfirmed genesis g n = false.
Proof.
  unfold nextMove, latestBoard, isMoveConfirmed, genesis. cbn.
  rewrite !lookup_empty. auto.
Qed.

Lemma uint120_limit : 4 < 2 ^ 120.
Proof. reflexivity. Qed.

(** X6.  In every reachable world the next move number of every game is
    a [uint120]: the counter starts at 0, is set to 4 by [startGame] and
    is only ever incremented by a checked addition, so it never wraps. *)
Theorem nextMove_in_range (w : World) (g : Z) :
  reachable w -> 0 <= nextMove w g < 2 ^ 120.
Proof.
  intros Hreach. revert g.
  apply (reachable_ind (fun w => forall g, 0 <= nextMove w g < 2 ^ 120));
    [| |exact Hreach].
  - intros g. destruct (genesis_is_empty g 0) as (-> & _).
    pose proof uint120_limit. lia.
  - intros w' r IH.
    apply (step_committed (fun w'' => forall g, 0 <= nextMove w'' g < 2 ^ 120));
      [exact IH| |].
    + intros c bn g bs ms _ _ g'. rewrite nextMove_started_at.
      pose proof uint120_limit.
      destruct (decide (g = g')); [lia|apply IH].
    + intros c bn g mv rb _ Hrun g'. rewrite nextMove_played_at.
      pose proof (play_checks _ _ _ _ _ _ _ Hrun) as (_ & _ & Hlt).
      destruct (decide (g = g')); [|apply IH]. pose proof (IH g). lia.
Qed.

(** X7.  At the last move number a [uint120] can hold, [play] reverts
    with a panic even for the principal and a transition the board library
    accepts, and writes nothing. *)
Theorem play_panics_at_limit (c bn g mv rb : Z) (w : World) :
  c = principalOf g ->
  validateTransformation (latestBoard w g) mv rb
    (calculateSeed g (nextMove w g)) = true ->
  2 ^ 120 - 1 <= nextMove w g ->
  play c bn g mv rb w = (w, inl Panic).
Proof.
  intros Hc Hv Hn. rewrite play_unfold.
  apply Z.eqb_eq in Hc. rewrite Hc, Hv. cbn [negb].
  replace (nextMove w g + 1 <? 2 ^ 120) with false
    by (symmetry; apply Z.ltb_ge; lia).
  reflexivity.
Qed.

(** X8.  In every reachable world, every move number from 1 up to, but
    not including, the next move number of a game is confirmed. *)
Theorem confirmed_up_to_next (w : World) (g n : Z) :
  reachable w -> 1 <= n < nextMove w g -> isMoveConfirmed w g n = true.
Proof.
  intros Hreach. revert g n.
  apply (reachable_ind
           (fun w => forall g n, 1 <= n < nextMove w g
                                 -> isMoveConfirmed w g n = true));
    [| |exact Hreach].
  - intros g n. destruct (genesis_is_empty g n) as (-> & _). lia.
  - intros w' r IH.
    apply (step_committed
             (fun w'' => forall g n, 1 <= n < nextMove w'' g
                                     -> isMoveConfirmed w'' g n = true));
      [exact IH| |].
    + intros c bn g bs ms _ _ g' n. rewrite nextMove_started_at.
      rewrite confirmed_started_iff. intros Hn.
      destruct (decide (g = g')) as [<-|Hne].
      * rewrite bool_decide_eq_true_2 by (split; [reflexivity|lia]).
        reflexivity.
      * rewrite (IH g' n Hn). apply orb_true_r.
    + intros c bn g mv rb _ _ g' n. rewrite nextMove_played_at.
      rewrite confirmed_played_iff. intros Hn.
      destruct (decide (g = g')) as [<-|Hne].
      * destruct (Z.eq_dec n (nextMove w' g)) as [->|Hlt].
        -- rewrite bool_decide_eq_true_2 by (split; reflexivity). reflexivity.
        -- rewrite (IH g n) by lia. apply orb_true_r.
      * rewrite (IH g' n Hn). apply orb_true_r.
Qed.

(** ** With a board library that never accepts the zero board *)

Lemma started_board_nonzero c bn g bs ms w w' :
  rejectsZeroBoard ->
  startGame c bn g bs ms w = (w', inr tt) -> at4 bs 3 <> 0.
Proof.
  intros Hrej Hrun Hz.
  pose proof (startGame_checks _ _ _ _ _ _ _ Hrun) as (_ & _ & _ & _ & _ & _ & H3).
  rewrite Hz, Hrej in H3. discriminate.
Qed.

Lemma played_board_nonzero c bn g mv rb w w' :
  rejectsZeroBoard ->
  play c bn g mv rb w = (w', inr tt) -> rb <> 0.
Proof.
  intros Hrej Hrun Hz.
  pose proof (play_checks _ _ _ _ _ _ _ Hrun) as (_ & Hv & _).
  rewrite Hz, Hrej in Hv. discriminate.
Qed.

Lemma board_stays_nonzero (w : World) (r : Request) (g : Z) :
  rejectsZeroBoard ->
  latestBoard w g <> 0 -> latestBoard (step w r) g <> 0.
Proof.
  intros Hrej Hnz.
  apply (step_committed (fun w' => latestBoard w' g <> 0)); [exact Hnz| |].
  - intros c bn g' bs ms _ Hrun. rewrite latestBoard_started_at.
    destruct (decide (g' = g)); [|exact Hnz].
    exact (started_board_nonzero _ _ _ _ _ _ _ Hrej Hrun).
  - intros c bn g' mv rb _ Hrun. rewrite latestBoard_played_at.
    destruct (decide (g' = g)); [|exact Hnz].
    exact (played_board_nonzero _ _ _ _ _ _ _ Hrej Hrun).
Qed.

Lemma record_has_board (w : World) (g : Z) :
  rejectsZeroBoard -> reachable w ->
  is_Some (state (storage w) !! g) -> latestBoard w g <> 0.
Proof.
  intros Hrej Hreach. revert g. revert w Hreach.
  apply (reachable_ind
           (fun w => forall g, is_Some (state (storage w) !! g)
                               -> latestBoard w g <> 0)).
  - intros g [s Hs]. cbn in Hs. rewrite lookup_empty in Hs. discriminate.
  - intros w r IH g.
    apply (step_committed
             (fun w' => is_Some (state (storage w') !! g)
                        -> latestBoard w' g <> 0)).
    + apply IH.
    + intros c bn g' bs ms _ Hrun Hsome. rewrite latestBoard_started_at.
      destruct (decide (g' = g)) as [_|Hne].
      * exact (started_board_nonzero _ _ _ _ _ _ _ Hrej Hrun).
      * apply IH. unfold started in Hsome. cbn in Hsome.
        rewrite lookup_insert_ne in Hsome by exact Hne. exact Hsome.
    + intros c bn g' mv rb _ Hrun Hsome. rewrite latestBoard_played_at.
      destruct (decide (g' = g)) as [_|Hne].
      * exact (played_board_nonzero _ _ _ _ _ _ _ Hrej Hrun).
      * apply IH. unfold played in Hsome. cbn in Hsome.
        rewrite lookup_insert_ne in Hsome by exact Hne. exact Hsome.
Qed.

Lemma board_has_record (w : World) (g : Z) :
  latestBoard w g <> 0 -> is_Some (state (storage w) !! g).
Proof.
  unfold latestBoard. destruct (state (storage w) !! g) as [s|].
  - intros _. exists s. reflexivity.
  - intros Hnz. contradiction Hnz. reflexivity.
Qed.


(** X9.  With a board library that never validates a transition to the
    zero board, a game identifier is used up by its first successful
    [startGame]: whatever calls follow, every later [startGame] under that
    identifier fails, with [GameIdUsed] for the principal and with
    [GamePlayerInvalid] for anyone else, and changes nothing. *)
Theorem started_game_cannot_restart (w0 w1 : World) (c bn g : Z)
    (bs : uint128x4) (ms : uint8x3) (rs : list Request)
    (c2 bn2 : Z) (bs2 : uint128x4) (ms2 : uint8x3) :
  rejectsZeroBoard ->
  startGame c bn g bs ms w0 = (w1, inr tt) ->
  startGame c2 bn2 g bs2 ms2 (run w1 rs)
  = (run w1 rs,
     inl (if c2 =? principalOf g then GameIdUsed else GamePlayerInvalid)).
Proof.
  intros Hrej Hstart.
  assert (Hnz : latestBoard (run w1 rs) g <> 0).
  { apply (run_invariant (fun w => latestBoard w g <> 0)).
    - intros w r. apply board_stays_nonzero, Hrej.
    - rewrite (startGame_succeeds _ _ _ _ _ _ _ Hstart).
      rewrite latestBoard_started_at.
      destruct (decide (g = g)); [|contradiction].
      exact (started_board_nonzero _ _ _ _ _ _ _ Hrej Hstart). }
  rewrite startGame_unfold.
  destruct (c2 =? principalOf g); cbn [negb]; [|reflexivity].
  apply Z.eqb_neq in Hnz. rewrite Hnz. reflexivity.
Qed.

(** X10.  With such a board library, in every reachable world a confirmed
    move number is one the game has already passed: it is at least 0 and
    below the game's next move number; a game whose stored board is zero
    has next move number 0 and no confirmed move. *)
Theorem confirmed_only_below_next (w : World) (g n : Z) :
  rejectsZeroBoard ->
  reachable w ->
  (isMoveConfirmed w g n = true -> 0 <= n < nextMove w g)
  /\ (latestBoard w g = 0
      -> nextMove w g = 0 /\ isMoveConfirmed w g n = false).
Proof.
  intros Hrej Hreach.
  assert (Hinv : forall g,
             0 <= nextMove w g
             /\ (latestBoard w g = 0 -> nextMove w g = 0)
             /\ forall n, isMoveConfirmed w g n = true -> 0 <= n < nextMove w g).
  { apply (reachable_ind
             (fun w => forall g,
                  0 <= nextMove w g
                  /\ (latestBoard w g = 0 -> nextMove w g = 0)
                  /\ forall n, isMoveConfirmed w g n = true
                               -> 0 <= n < nextMove w g));
      [| |exact Hreach].
    - intros g'. destruct (genesis_is_empty g' 0) as (-> & _).
      split; [lia|]. split; [reflexivity|]. intros n' Hc.
      destruct (genesis_is_empty g' n') as (_ & _ & Hf). congruence.
    - intros w' r IH.
      apply (step_committed
               (fun w'' => forall g,
                    0 <= nextMove w'' g
                    /\ (latestBoard w'' g = 0 -> nextMove w'' g = 0)
                    /\ forall n, isMoveConfirmed w'' g n = true
                                 -> 0 <= n < nextMove w'' g));
        [exact IH| |].
      + intros c bn g0 bs ms _ Hrun g'.
        pose proof (startGame_checks _ _ _ _ _ _ _ Hrun) as (_ & Hfree & _).
        pose proof (started_board_nonzero _ _ _ _ _ _ _ Hrej Hrun) as Hb3.
        destruct (IH g') as (Hpos & Hzero & Hflags).
        rewrite nextMove_started_at, latestBoard_started_at.
        destruct (decide (g0 = g')) as [<-|Hne].
        * split; [lia|]. split; [contradiction|].
          intros n'. rewrite confirmed_started_iff.
          intros [Hin|Hold]%orb_prop.
          -- apply bool_decide_eq_true_1 in Hin. lia.
          -- apply Hflags in Hold. rewrite (Hzero Hfree) in Hold. lia.
        * split; [exact Hpos|]. split; [exact Hzero|].
          intros n'. rewrite confirmed_started_iff.
          rewrite bool_decide_eq_false_2 by (intros [Hg _]; congruence).
          apply Hflags.
      + intros c bn g0 mv rb _ Hrun g'.
        pose proof (played_board_nonzero _ _ _ _ _ _ _ Hrej Hrun) as Hrb.
        destruct (IH g') as (Hpos & Hzero & Hflags).
        rewrite nextMove_played_at, latestBoard_played_at.
        destruct (decide (g0 = g')) as [<-|Hne].
        * split; [lia|]. split; [contradiction|].
          intros n'. rewrite confirmed_played_iff.
          intros [Hin|Hold]%orb_prop.
          -- apply bool_decide_eq_true_1 in Hin. lia.
          -- apply Hflags in Hold. lia.
        * split; [exact Hpos|]. split; [exact Hzero|].
          intros n'. rewrite confirmed_played_iff.
          rewrite bool_decide_eq_false_2 by (intros [Hg _]; congruence).
          apply Hflags. }
  destruct (Hinv g) as (Hpos & Hzero & Hflags).
  split; [apply Hflags|].
  intros Hz. split; [exact (Hzero Hz)|].
  destruct (isMoveConfirmed w g n) eqn:Hc; [|reflexivity].
  apply Hflags in Hc. rewrite (Hzero Hz) in Hc. lia.
Qed.

End Facts.
End ChainFacts.

(* ===================================================================== *)
(** * The client                                                          *)
(* ===================================================================== *)

Module ClientFacts.
Import Client.

(** X12.  Whatever the network answers, the fees [getCurrentGasPrices]
    returns are valid EIP-1559 parameters: the priority fee is positive
    and strictly below the maximum fee. *)
Theorem gas_prices_well_ordered (getBlock : settled (option Z))
    (getGasPrice : settled Z) :
  0 < maxPriorityFeePerGas (getCurrentGasPrices getBlock getGasPrice)
    < maxFeePerGas (getCurrentGasPrices getBlock getGasPrice).
Proof.
  unfold getCurrentGasPrices, gwei_10, gwei_2, gwei_0_5.
  destruct getBlock as [blockBaseFee|]; [|cbn; lia].
  destruct getGasPrice as [gasPrice|]; [|cbn; lia].
  set (base := orOneGwei blockBaseFee).
  destruct (base <? gwei_1);
    match goal with
    | |- context [if ?a >? ?b then _ else _] => destruct (Z.gtb_spec a b)
    end;
    match goal with
    | |- context [if ?a >=? ?b then _ else _] => destruct (Z.geb_spec a b)
    end; cbn; lia.
Qed.

(** X13.  For a base fee that is not negative the maximum fee covers
    twice the base fee plus the priority fee, and the quoted gas price
    plus the priority fee; the priority fee is 0.5 or 2 gwei. *)
Theorem gas_prices_headroom (baseFee gasPrice : Z) :
  0 <= baseFee ->
  let p := getCurrentGasPrices (Resolved (Some baseFee)) (Resolved gasPrice) in
  2 * baseFee + maxPriorityFeePerGas p <= maxFeePerGas p
  /\ gasPrice + maxPriorityFeePerGas p <= maxFeePerGas p
  /\ (maxPriorityFeePerGas p = gwei_0_5 \/ maxPriorityFeePerGas p = gwei_2).
Proof.
  intros Hb p. subst p.
  unfold getCurrentGasPrices, orOneGwei, gwei_1, gwei_2, gwei_0_5.
  destruct (Z.eqb_spec baseFee 0) as [->|Hnz];
    match goal with
    | |- context [if ?a <? ?b then _ else _] => destruct (Z.ltb_spec a b)
    end;
    match goal with
    | |- context [if ?a >? ?b then _ else _] => destruct (Z.gtb_spec a b)
    end;
    match goal with
    | |- context [if ?a >=? ?b then _ else _] => destruct (Z.geb_spec a b)
    end; cbn; lia.
Qed.

(** X14.  A base fee of zero is taken for a missing one: 1 gwei is
    assumed and the priority fee is 2 gwei, while any base fee from 1 wei
    to just under 1 gwei gets the priority fee of 0.5 gwei. *)
Theorem zero_base_fee_counts_as_missing (baseFee gasPrice : Z) :
  0 < baseFee < gwei_1 ->
  getCurrentGasPrices (Resolved (Some 0)) (Resolved gasPrice)
  = getCurrentGasPrices (Resolved None) (Resolved gasPrice)
  /\ maxPriorityFeePerGas
       (getCurrentGasPrices (Resolved (Some 0)) (Resolved gasPrice)) = gwei_2
  /\ maxPriorityFeePerGas
       (getCurrentGasPrices (Resolved (Some baseFee)) (Resolved gasPrice))
     = gwei_0_5.
Proof.
  intros Hb. split; [reflexivity|].
  unfold getCurrentGasPrices, orOneGwei, gwei_1, gwei_2, gwei_0_5 in *.
  split.
  - cbn [Z.eqb Z.ltb Z.compare Pos.compare Pos.compare_cont].
    match goal with
    | |- context [if ?a >? ?b then _ else _] => destruct (Z.gtb_spec a b)
    end;
    match goal with
    | |- context [if ?a >=? ?b then _ else _] => destruct (Z.geb_spec a b)
    end; reflexivity.
  - destruct (Z.eqb_spec baseFee 0); [lia|].
    destruct (Z.ltb_spec baseFee 1000000000); [|lia].
    match goal with
    | |- context [if ?a >? ?b then _ else _] => destruct (Z.gtb_spec a b)
    end;
    match goal with
    | |- context [if ?a >=? ?b then _ else _] => destruct (Z.geb_spec a b)
    end; reflexivity.
Qed.

(** X15.  [estimateGas] answers the fallback 120000 when no user address
    is set (the network is then not asked) or the estimate fails; and for
    an estimate that is not negative it answers the estimate plus a
    quarter, rounded down: never less than the estimate. *)
Theorem estimateGas_buffer (address estimatedGas : Z)
    (networkEstimate : Z -> settled Z) :
  0 <= estimatedGas ->
  estimateGas None networkEstimate = 120000
  /\ (networkEstimate address = Rejected
      -> estimateGas (Some address) networkEstimate = 120000)
  /\ (networkEstimate address = Resolved estimatedGas
      -> estimatedGas <= estimateGas (Some address) networkEstimate
         /\ 100 * estimateGas (Some address) networkEstimate
            <= 125 * estimatedGas
            < 100 * (estimateGas (Some address) networkEstimate + 1)).
Proof.
  intros Hpos. split; [reflexivity|]. split.
  - intros Hrej. unfold estimateGas. rewrite Hrej. reflexivity.
  - intros Hres. unfold estimateGas. rewrite Hres.
    rewrite Z.quot_div_nonneg by lia.
    pose proof (Z.div_mod (estimatedGas * 125) 100 ltac:(lia)) as Hdm.
    pose proof (Z.mod_pos_bound (estimatedGas * 125) 100 ltac:(lia)) as Hm.
    lia.
Qed.

Section Retry.
Context {Json Err : Type}.
Variable fetchAt : Z -> Err + Json.

Lemma attempts_until_success (k retries : Z) (json : Json) :
  k <= retries ->
  (forall j, 0 <= j < k -> exists e, fetchAt j = inl e) ->
  fetchAt k = inr json ->
  forall (fuel : nat) (attempt : Z) (lastError : option Err)
         (fetched waited : nat),
    0 <= attempt <= k ->
    (Z.to_nat (k - attempt) < fuel)%nat ->
    attempts fetchAt fuel retries attempt lastError fetched waited
    = mkRun (Returned json)
        (fetched + Z.to_nat (k - attempt) + 1)
        (waited + Z.to_nat (k - attempt)).
Proof.
  intros Hk Hfail Hok fuel.
  induction fuel as [|fuel IH]; intros attempt lastError fetched waited Ha Hf;
    [lia|].
  cbn [attempts].
  replace (attempt <=? retries) with true by (symmetry; apply Z.leb_le; lia).
  destruct (Z.eq_dec attempt k) as [->|Hne].
  - rewrite Hok. rewrite Z.sub_diag. cbn. f_equal; lia.
  - destruct (Hfail attempt ltac:(lia)) as [e He]. rewrite He.
    replace (attempt =? retries) with false by (symmetry; apply Z.eqb_neq; lia).
    rewrite IH by lia. f_equal; lia.
Qed.

Lemma attempts_until_exhausted (retries : Z) (e : Err) :
  (forall j, 0 <= j < retries -> exists e', fetchAt j = inl e') ->
  fetchAt retries = inl e ->
  forall (fuel : nat) (attempt : Z) (lastError : option Err)
         (fetched waited : nat),
    0 <= attempt <= retries ->
    (Z.to_nat (retries - attempt) < fuel)%nat ->
    attempts fetchAt fuel retries attempt lastError fetched waited
    = mkRun (Thrown (Some e))
        (fetched + Z.to_nat (retries - attempt) + 1)
        (waited + Z.to_nat (retries - attempt)).
Proof.
  intros Hfail Hlast fuel.
  induction fuel as [|fuel IH]; intros attempt lastError fetched waited Ha Hf;
    [lia|].
  cbn [attempts].
  replace (attempt <=? retries) with true by (symmetry; apply Z.leb_le; lia).
  destruct (Z.eq_dec attempt retries) as [->|Hne].
  - rewrite Hlast, Z.eqb_refl, Z.sub_diag. cbn. f_equal; lia.
  - destruct (Hfail attempt ltac:(lia)) as [e' He']. rewrite He'.
    replace (attempt =? retries) with false by (symmetry; apply Z.eqb_neq; lia).
    rewrite IH by lia. f_equal; lia.
Qed.

(** X16.  [post] returns the body of the first attempt that succeeds,
    provided it is among attempts 0 to [retries]: it has then made one
    [fetch] per attempt up to that one and paused once after each failed
    one. *)
Theorem post_returns_first_success (retries k : Z) (json : Json) :
  0 <= k <= retries ->
  (forall j, 0 <= j < k -> exists e, fetchAt j = inl e) ->
  fetchAt k = inr json ->
  post fetchAt retries
  = mkRun (Returned json) (Z.to_nat k + 1) (Z.to_nat k).
Proof.
  intros Hk Hfail Hok. unfold post.
  rewrite (attempts_until_success k retries json) by (try assumption; lia).
  rewrite Z.sub_0_r. reflexivity.
Qed.


Lemma attempts_bounded (retries : Z) :
  forall (fuel : nat) (attempt : Z) (lastError : option Err)
         (fetched waited : nat),
    Z.of_nat fetched = attempt ->
    waited = fetched ->
    attempt <= retries ->
    (Z.to_nat (retries + 1 - attempt) < fuel)%nat ->
    Z.of_nat (fetches (attempts fetchAt fuel retries attempt lastError
                         fetched waited)) <= retries + 1
    /\ fetches (attempts fetchAt fuel retries attempt lastError
                  fetched waited)
       = S (waits (attempts fetchAt fuel retries attempt lastError
                     fetched waited)).
Proof.
  induction fuel as [|fuel IH]; intros attempt lastError fetched waited
    Hf Hw Ha Hfuel; [lia|]. cbn [attempts].
  replace (attempt <=? retries) with true by (symmetry; apply Z.leb_le; lia).
  destruct (fetchAt attempt) as [e|json]; [|cbn; split; [lia|congruence]].
  destruct (Z.eqb_spec attempt retries); [cbn; split; [lia|congruence]|].
  apply IH; lia.
Qed.


End Retry.
End ClientFacts.

Module WalletFacts.
Import Wallet.

(** Up to [exactLimit] in size an integer is a number. *)
Lemma toNumber_exact (z : Z) : Z.abs z <= exactLimit -> toNumber z = z.
Proof.
  unfold exactLimit. intros Hz.
  destruct (Z.eq_dec (Z.abs z) (2 ^ 53)) as [Heq|Hne].
  - destruct (Z.abs_spec z) as [[_ Habs]|[_ Habs]]; rewrite Habs in Heq.
    + subst z. vm_compute. reflexivity.
    + assert (z = - 2 ^ 53) as -> by lia. vm_compute. reflexivity.
  - unfold toNumber.
    assert (Hlog : Z.log2 (Z.abs z) - 52 <= 0).
    { destruct (Z.eq_dec (Z.abs z) 0) as [H0|H0].
      - rewrite H0. cbn. lia.
      - assert (Z.log2 (Z.abs z) < 53); [|lia].
        apply Z.log2_lt_pow2; lia. }
    apply Z.leb_le in Hlog. rewrite Hlog. reflexivity.
Qed.

(** From [exactLimit] adding one changes nothing. *)
Lemma toNumber_stuck : toNumber (exactLimit + 1) = exactLimit.
Proof. vm_compute. reflexivity. Qed.

Section Facts.
Variable tooPoor : Z -> bool.

Lemma perform_cases (a : Action) (w : t) :
  (perform tooPoor a w = (w, Refused))
  \/ (exists d spent,
        perform tooPoor a w
        = (mk (toNumber (userNonce w + 1)) (userBalance w - spent),
           Sent (userNonce w) d)
        /\ (spent = ether_0_0075 \/ spent = ether_0_005)
        /\ tooPoor (userBalance w) = false).
Proof.
  destruct a as [e d|e d]; cbn [perform];
    unfold initializeGameTransaction, playNewMoveTransaction;
    destruct (tooPoor (userBalance w)); [auto| |auto|];
    destruct e; cbn [negb]; auto; right; eauto 10.
Qed.

Lemma consecutive_below_limit (actions : list Action) (w : t) :
  - exactLimit <= userNonce w ->
  userNonce w + Z.of_nat (length actions) <= exactLimit ->
  sentNonces (snd (performAll tooPoor actions w))
  = countFrom (userNonce w)
      (length (sentNonces (snd (performAll tooPoor actions w))))
  /\ userNonce (fst (performAll tooPoor actions w))
     = userNonce w
       + Z.of_nat (length (sentNonces (snd (performAll tooPoor actions w)))).
Proof.
  revert w. induction actions as [|a rest IH]; intros w Hlow Hhigh.
  - cbn. split; [reflexivity|lia].
  - cbn [performAll]. cbn [length] in Hhigh.
    destruct (perform_cases a w) as [Href|(d & spent & Hsent & _ & _)].
    + rewrite Href. specialize (IH w Hlow ltac:(lia)).
      destruct (performAll tooPoor rest w) as [w2 os]. cbn in *. exact IH.
    + rewrite Hsent, toNumber_exact by lia.
      set (w1 := mk (userNonce w + 1) (userBalance w - spent)).
      specialize (IH w1 ltac:(cbn; lia) ltac:(cbn; lia)).
      destruct (performAll tooPoor rest w1) as [w2 os]. cbn in *.
      destruct IH as (Hn & Hw).
      split; [f_equal; exact Hn|lia].
Qed.

Lemma stuck_at_limit (actions : list Action) (w : t) :
  userNonce w = exactLimit ->
  Forall (fun nonce => nonce = exactLimit)
    (sentNonces (snd (performAll tooPoor actions w)))
  /\ userNonce (fst (performAll tooPoor actions w)) = exactLimit.
Proof.
  revert w. induction actions as [|a rest IH]; intros w Hw.
  - cbn. split; [constructor|exact Hw].
  - cbn [performAll].
    destruct (perform_cases a w) as [Href|(d & spent & Hsent & _ & _)].
    + rewrite Href. specialize (IH w Hw).
      destruct (performAll tooPoor rest w) as [w2 os]. cbn in *. exact IH.
    + rewrite Hsent, Hw, toNumber_stuck.
      set (w1 := mk exactLimit (userBalance w - spent)).
      specialize (IH w1 eq_refl).
      destruct (performAll tooPoor rest w1) as [w2 os]. cbn in *.
      destruct IH as (Hall & Hlast).
      split; [constructor; [reflexivity|exact Hall]|exact Hlast].
Qed.

Lemma balance_never_grows (actions : list Action) (w : t) :
  userBalance (fst (performAll tooPoor actions w)) <= userBalance w.
Proof.
  revert w. induction actions as [|a rest IH]; intros w.
  - cbn. lia.
  - cbn [performAll].
    destruct (perform_cases a w) as [Href|(d & spent & Hsent & Hspent & _)].
    + rewrite Href. specialize (IH w).
      destruct (performAll tooPoor rest w) as [w2 os]. cbn in *. exact IH.
    + rewrite Hsent.
      set (w1 := mk (toNumber (userNonce w + 1)) (userBalance w - spent)).
      specialize (IH w1).
      destruct (performAll tooPoor rest w1) as [w2 os]. cbn in *.
      unfold ether_0_0075, ether_0_005 in Hspent. destruct Hspent; lia.
Qed.

(** X19.  [userNonce] is a JavaScript number, and [nonce + 1] is exact
    only up to 2^53.  While the stored nonce, counted up once per call,
    stays within 2^53, the transactions a sequence of calls sends carry
    consecutive nonces starting from the stored one, so no nonce is used
    twice; a call that is refused (balance too low, or arguments that do
    not encode) takes no nonce, a call whose send fails has taken one all
    the same, and the stored nonce ends up advanced by the number of
    transactions handed to the sender.  Once the stored nonce is 2^53 it
    no longer advances: every further transaction carries the nonce 2^53.
    The tracked balance never goes up. *)
Theorem nonces_are_consecutive (actions : list Action) (w : t) :
  (- exactLimit <= userNonce w ->
   userNonce w + Z.of_nat (length actions) <= exactLimit ->
   sentNonces (snd (performAll tooPoor actions w))
   = countFrom (userNonce w)
       (length (sentNonces (snd (performAll tooPoor actions w))))
   /\ userNonce (fst (performAll tooPoor actions w))
      = userNonce w
        + Z.of_nat (length (sentNonces (snd (performAll tooPoor actions w)))))
  /\ (userNonce w = exactLimit ->
      Forall (fun nonce => nonce = exactLimit)
        (sentNonces (snd (performAll tooPoor actions w)))
      /\ userNonce (fst (performAll tooPoor actions w)) = exactLimit)
  /\ userBalance (fst (performAll tooPoor actions w)) <= userBalance w.
Proof.
  split; [apply consecutive_below_limit|].
  split; [apply stuck_at_limit|apply balance_never_grows].
Qed.

End Facts.
End WalletFacts.

(* ===================================================================== *)
(** * The packed encoding                                                 *)
(* ===================================================================== *)

Module AbiFacts.
Import Abi.

Lemma be_bytes_length (n : nat) (w : Z) : length (be_bytes n w) = n.
Proof.
  revert w. induction n as [|n IH]; intros w; cbn [be_bytes]; [reflexivity|].
  rewrite length_app, IH. cbn. lia.
Qed.

Lemma be_bytes_injective (n : nat) : forall w w' : Z,
  0 <= w < 256 ^ Z.of_nat n -> 0 <= w' < 256 ^ Z.of_nat n ->
  be_bytes n w = be_bytes n w' -> w = w'.
Proof.
  induction n as [|n IH]; intros w w' Hw Hw' Heq.
  - cbn in Hw, Hw'. lia.
  - cbn [be_bytes] in Heq. apply app_inj_tail in Heq as [Hhigh Hlow].
    rewrite Nat2Z.inj_succ, Z.pow_succ_r in Hw, Hw' by lia.
    assert (Hq : w / 256 = w' / 256).
    { apply IH; [| |exact Hhigh].
      - split; [apply Z.div_pos; lia|apply Z.div_lt_upper_bound; lia].
      - split; [apply Z.div_pos; lia|apply Z.div_lt_upper_bound; lia]. }
    rewrite (Z.div_mod w 256), (Z.div_mod w' 256) by lia. congruence.
Qed.

Lemma encodePacked_length (ws : list Z) :
  length (encodePacked ws) = (32 * length ws)%nat.
Proof.
  induction ws as [|w ws IH]; [reflexivity|].
  unfold encodePacked in *. cbn [flat_map]. rewrite length_app, IH.
  unfold word32. rewrite be_bytes_length. cbn [length]. lia.
Qed.

(** X11.  The packed encoding of 256-bit words is injective: two lists of
    words with the same bytes are the same list.  Different pairs of game
    identifier and move number, and different opening sequences, are
    therefore hashed from different bytes; and a pair is never hashed from
    the bytes of an opening, which are twice as long. *)
Theorem encodePacked_injective (ws ws' : list Z) :
  Forall (fun w => 0 <= w < 2 ^ 256) ws ->
  Forall (fun w => 0 <= w < 2 ^ 256) ws' ->
  encodePacked ws = encodePacked ws' ->
  ws = ws' /\ length (encodePacked ws) = (32 * length ws)%nat.
Proof.
  intros Hws Hws' Heq. split; [|apply encodePacked_length].
  revert ws' Hws' Heq.
  induction Hws as [|w ws Hw Hws IH]; intros ws' Hws' Heq.
  - destruct ws' as [|w' ws']; [reflexivity|].
    apply (f_equal (@length Z)) in Heq.
    rewrite !encodePacked_length in Heq. cbn [length] in Heq. lia.
  - destruct Hws' as [|w' ws' Hw' Hws'].
    + apply (f_equal (@length Z)) in Heq.
      rewrite !encodePacked_length in Heq. cbn [length] in Heq. lia.
    + unfold encodePacked in Heq. cbn [flat_map] in Heq.
      apply app_inj_1 in Heq as [Hhead Htail];
        [|unfold word32; rewrite !be_bytes_length; reflexivity].
      f_equal; [|apply IH; assumption].
      apply (be_bytes_injective 32); [| |exact Hhead].
      * change (256 ^ Z.of_nat 32) with (2 ^ 256). exact Hw.
      * change (256 ^ Z.of_nat 32) with (2 ^ 256). exact Hw'.
Qed.

End AbiFacts.

(* ===================================================================== *)
(** * The reference game: further instances                               *)
(* ===================================================================== *)

Module Instances.
Import Ledger Delta Chain Reference Scenario Client.
#[local] Existing Instance Reference.hash.
#[local] Existing Instance Reference.boardLib.

(** The modelled board library never validates the zero board: the
    canonical result carries the spawned tile. *)
Lemma reference_rejects_zero : rejectsZeroBoard.
Proof.
  intros prev move seed. cbn. unfold Board.validateTransformation.
  destruct (Board.decodeMove move) as [m|]; [|reflexivity].
  destruct (Board.validateTransition spawnsFour largestExponent prev m 0 seed)
    as [[|]|] eqn:Hv; try reflexivity.
  exfalso. unfold Board.validateTransition in Hv.
  destruct (Board.validBoard largestExponent prev); cbn [negb] in Hv;
    [|discriminate].
  destruct (Board.simulateMove prev m) as [[b merged] es].
  destruct merged; cbn [negb] in Hv; [|discriminate].
  unfold Board.chooseSpawn in Hv.
  destruct (Board.emptyCells b) as [|i0 rest]; cbn in Hv; [discriminate|].
  match type of Hv with
  | context [Board.setTile b ?i ?e] =>
      destruct (Board.setTile b i e) as [canonical|] eqn:Hset;
      cbn in Hv; [|discriminate];
      apply BoardFacts.setTile_Ok in Hset as (_ & He & ->);
      pose proof (BoardFacts.tileAt_putTile_eq b i e He) as Htile;
      assert (Hnz : e <> 0) by (destruct (spawnsFour seed); discriminate)
  end.
  injection Hv as Hv.
  match type of Htile with
  | Board.tileAt ?X _ = _ => destruct X eqn:HX; try discriminate Hv
  end.
  unfold Board.tileAt in Htile.
  rewrite Z.shiftr_0_l, Z.land_0_l in Htile. congruence.
Qed.

Lemma opened_reachable : reachable opened.
Proof.
  exists [StartGame player 100 gameId opening moves].
  vm_compute. reflexivity.
Qed.

Lemma moved_reachable : reachable moved.
Proof.
  exists [StartGame player 100 gameId opening moves;
          Play player 101 gameId 1 play4].
  vm_compute. reflexivity.
Qed.


(** Instance of X1. *)
Lemma only_the_principal_moves_a_game_witness :
  stateOf (run opened foreignCalls) gameId = stateOf opened gameId
  /\ forall n, isMoveConfirmed (run opened foreignCalls) gameId n
               = isMoveConfirmed opened gameId n.
Proof.
  apply (ChainFacts.only_the_principal_moves_a_game foreignCalls opened gameId).
  constructor; [|constructor; [|constructor]].
  - left. vm_compute. discriminate.
  - right. exact Examples.stranger_is_not_principal.
Defined.

(** Instance of X2. *)
Lemma opening_owner_is_permanent_witness :
  gameOfHash (run opened (Play player 101 gameId 1 play4 :: foreignCalls))
    (keccak256 (Abi.encodePacked (elems4 opening)))
  = gameId.
Proof.
  apply (ChainFacts.opening_owner_is_permanent genesis opened player 100
           gameId opening moves).
  - vm_compute. discriminate.
  - exact Examples.opening_accepted.
Defined.

(** Instance of X4. *)
Lemma events_name_the_principal_witness :
  eventPlayer (NewMove player gameId 1 play4)
  = principalOf (eventId (NewMove player gameId 1 play4)).
Proof.
  apply (ChainFacts.events_name_the_principal moved).
  - exact moved_reachable.
  - vm_compute. right. right. left. reflexivity.
Defined.

(** Instance of X5. *)
Lemma play_events_witness :
  log moved
  = log opened ++ [NewMove player gameId 1 play4;
                   MoveConfirmed player gameId (nextMove opened gameId) 101].
Proof.
  apply (ChainFacts.play_events player 101 gameId 1 play4 opened moved).
  exact Examples.fourth_move_accepted.
Defined.

(** Instance of X6. *)
Lemma nextMove_in_range_witness : 0 <= nextMove moved gameId < 2 ^ 120.
Proof.
  apply (ChainFacts.nextMove_in_range moved gameId). exact moved_reachable.
Defined.

(** Instance of X7. *)
Lemma play_panics_at_limit_witness :
  play player 200 gameId 1 pastLimit atLimit = (atLimit, inl Panic).
Proof.
  apply (ChainFacts.play_panics_at_limit player 200 gameId 1 pastLimit atLimit).
  - exact Examples.player_is_principal.
  - vm_compute. reflexivity.
  - vm_compute. discriminate.
Defined.

(** Instance of X8. *)
Lemma confirmed_up_to_next_witness : isMoveConfirmed moved gameId 4 = true.
Proof.
  apply (ChainFacts.confirmed_up_to_next moved gameId 4).
  - exact moved_reachable.
  - split; [lia|vm_compute; reflexivity].
Defined.

(** Instance of X9. *)
Lemma started_game_cannot_restart_witness :
  startGame player 104 gameId opening moves
    (run opened (Play player 101 gameId 1 play4 :: foreignCalls))
  = (run opened (Play player 101 gameId 1 play4 :: foreignCalls),
     inl GameIdUsed).
Proof.
  rewrite (ChainFacts.started_game_cannot_restart genesis opened player 100
             gameId opening moves
             (Play player 101 gameId 1 play4 :: foreignCalls)
             player 104 opening moves reference_rejects_zero
             Examples.opening_accepted).
  rewrite <- Examples.player_is_principal, Z.eqb_refl. reflexivity.
Defined.

(** Instance of X10. *)
Lemma confirmed_only_below_next_witness :
  (isMoveConfirmed moved gameId 4 = true -> 0 <= 4 < nextMove moved gameId)
  /\ (latestBoard moved gameId = 0
      -> nextMove moved gameId = 0 /\ isMoveConfirmed moved gameId 4 = false).
Proof.
  apply (ChainFacts.confirmed_only_below_next moved gameId 4).
  - exact reference_rejects_zero.
  - exact moved_reachable.
Defined.

(** Instance of X11. *)
Lemma encodePacked_injective_witness :
  [gameId; 4] = [gameId; 4]
  /\ length (Abi.encodePacked [gameId; 4]) = (32 * length [gameId; 4%Z])%nat.
Proof.
  apply (AbiFacts.encodePacked_injective [gameId; 4] [gameId; 4]).
  - constructor; [|constructor; [|constructor]];
      vm_compute; split; congruence.
  - constructor; [|constructor; [|constructor]];
      vm_compute; split; congruence.
  - reflexivity.
Defined.

(** Instance of X13. *)
Lemma gas_prices_headroom_witness :
  2 * 7 + maxPriorityFeePerGas
            (getCurrentGasPrices (Resolved (Some 7)) (Resolved gwei_1))
  <= maxFeePerGas (getCurrentGasPrices (Resolved (Some 7)) (Resolved gwei_1))
  /\ gwei_1 + maxPriorityFeePerGas
                (getCurrentGasPrices (Resolved (Some 7)) (Resolved gwei_1))
     <= maxFeePerGas
          (getCurrentGasPrices (Resolved (Some 7)) (Resolved gwei_1))
  /\ (maxPriorityFeePerGas
        (getCurrentGasPrices (Resolved (Some 7)) (Resolved gwei_1))
      = gwei_0_5
      \/ maxPriorityFeePerGas
           (getCurrentGasPrices (Resolved (Some 7)) (Resolved gwei_1))
         = gwei_2).
Proof.
  apply (ClientFacts.gas_prices_headroom 7 gwei_1). lia.
Defined.

(** Instance of X14. *)
Lemma zero_base_fee_counts_as_missing_witness :
  getCurrentGasPrices (Resolved (Some 0)) (Resolved gwei_1)
  = getCurrentGasPrices (Resolved None) (Resolved gwei_1)
  /\ maxPriorityFeePerGas
       (getCurrentGasPrices (Resolved (Some 0)) (Resolved gwei_1)) = gwei_2
  /\ maxPriorityFeePerGas
       (getCurrentGasPrices (Resolved (Some 1)) (Resolved gwei_1))
     = gwei_0_5.
Proof.
  apply (ClientFacts.zero_base_fee_counts_as_missing 1 gwei_1).
  unfold gwei_1. lia.
Defined.

(** Instance of X15: an estimate of 21001 gas becomes 26251. *)
Lemma estimateGas_buffer_witness :
  estimateGas None (fun _ => Resolved 21001) = 120000
  /\ ((fun _ : Z => Resolved 21001) player = Rejected
      -> estimateGas (Some player) (fun _ => Resolved 21001) = 120000)
  /\ ((fun _ : Z => Resolved 21001) player = Resolved 21001
      -> 21001 <= estimateGas (Some player) (fun _ => Resolved 21001)
         /\ 100 * estimateGas (Some player) (fun _ => Resolved 21001)
            <= 125 * 21001
            < 100 * (estimateGas (Some player) (fun _ => Resolved 21001) + 1)).
Proof.
  apply (ClientFacts.estimateGas_buffer player 21001 (fun _ => Resolved 21001)).
  lia.
Defined.

(** Instance of X16: the third attempt succeeds. *)
Lemma post_returns_first_success_witness :
  post flaky 3 = mkRun (Returned 42) 3 2.
Proof.
  apply (ClientFacts.post_returns_first_success flaky 3 2 42).
  - lia.
  - intros j Hj. exists j. unfold flaky.
    destruct (Z.ltb_spec j 2); [reflexivity|lia].
  - reflexivity.
Defined.


(** Witness of X19: a game started, a move whose arguments do not encode
    and a move whose send fails, from the nonce 2^53 - 3. *)
Lemma nonces_are_consecutive_witness :
  let actions := [Wallet.InitializeGame true true;
                  Wallet.PlayNewMove false true;
                  Wallet.PlayNewMove true false] in
  let final := Wallet.performAll belowMinimum actions nearLimit in
  Wallet.sentNonces (snd final)
  = Wallet.countFrom (Wallet.userNonce nearLimit)
      (length (Wallet.sentNonces (snd final)))
  /\ Wallet.userNonce (fst final)
     = Wallet.userNonce nearLimit
       + Z.of_nat (length (Wallet.sentNonces (snd final))).
Proof.
  apply (proj1 (WalletFacts.nonces_are_consecutive belowMinimum
                  [Wallet.InitializeGame true true;
                   Wallet.PlayNewMove false true;
                   Wallet.PlayNewMove true false] nearLimit)).
  - vm_compute. discriminate.
  - vm_compute. discriminate.
Defined.

(** Four moves from the nonce 2^53 - 2: the last three transactions
    carry the same nonce. *)
Lemma nonce_is_reused_past_limit :
  Wallet.sentNonces
    (snd (Wallet.performAll belowMinimum
            [Wallet.PlayNewMove true true; Wallet.PlayNewMove true true;
             Wallet.PlayNewMove true true; Wallet.PlayNewMove true true]
            (Wallet.mk (2 ^ 53 - 2) (10 ^ 18))))
  = [2 ^ 53 - 2; 2 ^ 53 - 1; 2 ^ 53; 2 ^ 53].
Proof. vm_compute. reflexivity. Qed.


End Instances.
